(** * sampler_helpers: resource preparation, memory estimate and teardown

    A shallow embedding of [ldm_patched/modules/sampler_helpers.py].

    Python objects are shared by reference and compared by identity, so a
    model-like object is a reference [ref] into an object store [heap].
    Loops that grow a list or update a dict become folds that pass the
    accumulator along; calls that can raise return a [result]; the two
    observable effects (the load request sent to the device manager and the
    [cleanup()] calls) are recorded as a trace of [event]s. *)

From Stdlib Require Import List ZArith String Bool Lia Permutation PeanoNat.
Import ListNotations.

Set Implicit Arguments.

(** ** Python values and failures *)

(** [id(obj)]: the identity of a Python object. *)
Definition ref := positive.

Inductive PyErr : Type :=
| AttributeError      (* a capability the code calls is absent *)
| IndexError          (* a subscript is out of range *)
| ResourceExhausted.  (* raised by the device manager *)

Inductive result (A : Type) : Type :=
| Ok (a : A)
| Raise (e : PyErr).
Arguments Ok {A} a.
Arguments Raise {A} e.

Definition bind {A B} (r : result A) (k : A -> result B) : result B :=
  match r with
  | Ok a => k a
  | Raise e => Raise e
  end.

Declare Scope py_scope.
Delimit Scope py_scope with py.
Notation "x <- c ;; k" := (bind c (fun x => k))
  (at level 61, c at next level, right associativity) : py_scope.
Notation "' p <- c ;; k" := (bind c (fun x => match x with p => k end))
  (at level 61, p pattern, c at next level, right associativity) : py_scope.

(** A loop whose body can raise: the first exception ends the loop. *)
Fixpoint foldM {A B} (f : A -> B -> result A) (a : A) (l : list B) : result A :=
  match l with
  | [] => Ok a
  | x :: l' => bind (f a x) (fun a' => foldM f a' l')
  end.

(** A list comprehension whose element expression can raise. *)
Fixpoint mapM {A B} (f : A -> result B) (l : list A) : result (list B) :=
  match l with
  | [] => Ok []
  | x :: l' => bind (f x) (fun y => bind (mapM f l') (fun ys => Ok (y :: ys)))
  end.

(** The value stored under a dict key that the code tests with
    [isinstance(_, list)]: either a list or any other single object. *)
Inductive pyval (A : Type) : Type :=
| Single (x : A)
| PyList (xs : list A).
Arguments Single {A} x.
Arguments PyList {A} xs.

(** A Python dict with string keys, in insertion order. *)
Definition dict (V : Type) := list (string * V).

Fixpoint dict_get {V} (d : dict V) (k : string) : option V :=
  match d with
  | [] => None
  | (k', v) :: d' => if String.eqb k' k then Some v else dict_get d' k
  end.

(** [d[k] = v]: overwrite in place, or append a new key at the end. *)
Fixpoint dict_set {V} (d : dict V) (k : string) (v : V) : dict V :=
  match d with
  | [] => [(k, v)]
  | (k', v') :: d' =>
      if String.eqb k' k then (k', v) :: d' else (k', v') :: dict_set d' k v
  end.

Definition dict_keys {V} (d : dict V) : list string := map fst d.

(** ** ldm_patched.hooks *)

Module hooks.

Inductive EnumHookType : Type :=
| Weight
| AdditionalModels
| TransformerOptions.

Definition EnumHookType_eqb (a b : EnumHookType) : bool :=
  match a, b with
  | Weight, Weight => true
  | AdditionalModels, AdditionalModels => true
  | TransformerOptions, TransformerOptions => true
  | _, _ => false
  end.

(** A hook: its reference (what hook equality looks at), its type tag and,
    for an AdditionalModels hook, the models it brings along. *)
Record Hook : Type := mkHook {
  hook_ref : positive;
  hook_type : EnumHookType;
  models : list ref
}.

Definition Hook_eq_dec (a b : Hook) : {a = b} + {a <> b}.
Proof.
  decide equality.
  - apply (list_eq_dec Pos.eq_dec).
  - decide equality.
  - apply Pos.eq_dec.
Defined.

(** Modelled from the spec: the class [HookGroup] of [ldm_patched/hooks.py]
    is not among the sources.  The spec describes it as a set of hooks in
    insertion order ("list iteration order of the hook group - insertion
    order"), where hooks are "deduplicated by identity/equality, not
    silently overwritten". *)
Record HookGroup : Type := mkHookGroup { hooks : list Hook }.

Definition empty : HookGroup := mkHookGroup [].

(** Modelled from the spec: [HookGroup.add] adds a hook unless an equal
    one is already present. *)
Definition add (g : HookGroup) (hook : Hook) : HookGroup :=
  if in_dec Hook_eq_dec hook (hooks g) then g
  else mkHookGroup (hooks g ++ [hook]).

(** Modelled from the spec: [HookGroup.get_type] gives the hooks carrying
    one type tag, in the group's order. *)
Definition get_type (g : HookGroup) (t : EnumHookType) : list Hook :=
  filter (fun hook => EnumHookType_eqb (hook_type hook) t) (hooks g).

(** Modelled from the spec: [HookGroup.combine_all_hooks] "combine all
    collected extra-hook groups (union, skipping empty)"; there is no
    group ([None]) when nothing was collected. *)
Definition combine_all_hooks (hooks_list : list HookGroup) : option HookGroup :=
  match hooks_list with
  | [] => None
  | g :: rest =>
      Some (fold_left (fun acc g' => fold_left add (hooks g') acc) rest
                      (fold_left add (hooks g) empty))
  end.

End hooks.

(** ** The object store *)

Inductive dtype : Type := float16 | bfloat16 | float32.

(** What the code consumes of a model-like object.  The spec lists every
    one of these as optional: a method the object lacks is [None] (calling
    it raises [AttributeError]); [extra_hooks] and [previous_controlnet] are
    attributes that hold [None] when there is nothing. *)
Record Obj : Type := mkObj {
  get_models : option (list ref);
  inference_memory_requirements : option (dtype -> Z);
  has_cleanup : bool;
  extra_hooks : option hooks.HookGroup;
  previous_controlnet : option ref
}.

Definition heap := ref -> Obj.

(** Iterating over [set(l)] visits every distinct element of [l] once, in an
    order the language leaves open.  Everything below is stated for an
    arbitrary such order. *)
Class SetIteration : Type := {
  set_iter : list ref -> list ref;
  set_iter_NoDup : forall l, NoDup (set_iter l);
  set_iter_In : forall l x, In x (set_iter l) <-> In x l
}.

(** ** Conditioning *)

(** One conditioning entry: the keys the code looks at ([None]: key absent)
    and the rest of the keyed data, each reduced to its shape. *)
Record Cond : Type := mkCond {
  c_control : option ref;
  c_gligen : option (pyval (list ref));
  c_additional_models : option (pyval ref);
  c_hooks : option hooks.HookGroup;
  c_payload : list (string * list Z)
}.

(** The [model_type] keys.  [c["control"]] is a single control object,
    never a list; a ["gligen"] item is a tuple. *)
Definition key_control (c : Cond) : option (pyval ref) :=
  option_map Single (c_control c).
Definition key_gligen : Cond -> option (pyval (list ref)) := c_gligen.
Definition key_additional_models : Cond -> option (pyval ref) :=
  c_additional_models.

(** The conditioning set: branch key to entries.  [for k in conds] followed
    by [conds[k]] walks the stored values in insertion order. *)
Definition Conds := dict (list Cond).

(** ** Dicts and lists that are shared and updated in place

    [prepare_model_patcher] works on nested dicts that several owners can
    hold at once, so these live in a store: a location is the identity of a
    dict or list object, and an update changes the object at its location
    for everyone who holds it. *)

Definition loc := nat.

(** What a dict or list holds: a callable or another leaf ([Atom]), a
    reference to a dict or list ([Ref]), or a hook group ([Group]). *)
Inductive val : Type :=
| Atom (a : nat)
| Ref (l : loc)
| Group (g : hooks.HookGroup).

Inductive obj : Type :=
| DictObj (items : dict val)
| ListObj (items : list val).

Definition store := list obj.

(** A computation on the store that may end without a value (an exception,
    or nesting used up); the store it leaves is there in both cases. *)
Definition ST (A : Type) := store -> store * option A.

Definition st_ret {A} (a : A) : ST A := fun s => (s, Some a).

Definition st_fail {A} : ST A := fun s => (s, None).

Definition st_bind {A B} (m : ST A) (k : A -> ST B) : ST B :=
  fun s => match m s with
           | (s', Some a) => k a s'
           | (s', None) => (s', None)
           end.

Declare Scope st_scope.
Delimit Scope st_scope with st.
Notation "x <- c ;; k" := (st_bind c (fun x => k))
  (at level 61, c at next level, right associativity) : st_scope.
Notation "c ;;; k" := (st_bind c (fun _ => k))
  (at level 61, right associativity) : st_scope.

Definition load (l : loc) : ST obj := fun s => (s, nth_error s l).

(** A new object gets the next free location. *)
Definition alloc (o : obj) : ST loc := fun s => (s ++ [o], Some (List.length s)).

Definition write (l : loc) (o : obj) : ST unit :=
  fun s => if l <? List.length s
           then (firstn l s ++ o :: skipn (S l) s, Some tt)
           else (s, None).

(** [d[k]] *)
Definition getitem (d : val) (k : string) : ST val :=
  match d with
  | Ref l =>
      (o <- load l ;;
       match o with
       | DictObj items =>
           match dict_get items k with
           | Some v => st_ret v
           | None => st_fail
           end
       | ListObj _ => st_fail
       end)%st
  | _ => st_fail
  end.

(** [d[k] = v] *)
Definition setitem (d : val) (k : string) (v : val) : ST unit :=
  match d with
  | Ref l =>
      (o <- load l ;;
       match o with
       | DictObj items => write l (DictObj (dict_set items k v))
       | ListObj _ => st_fail
       end)%st
  | _ => st_fail
  end.

(** [d.setdefault(k, {})]: the empty dict is built before the call, whether
    it ends up stored or not. *)
Definition setdefault_dict (d : val) (k : string) : ST val :=
  (fresh <- alloc (DictObj []) ;;
   match d with
   | Ref l =>
       o <- load l ;;
       match o with
       | DictObj items =>
           match dict_get items k with
           | Some v => st_ret v
           | None => write l (DictObj (dict_set items k (Ref fresh))) ;;;
                     st_ret (Ref fresh)
           end
       | ListObj _ => st_fail
       end
   | _ => st_fail
   end)%st.

(** A comprehension, and a loop, over a list. *)
Fixpoint map_st {A B} (f : A -> ST B) (l : list A) : ST (list B) :=
  match l with
  | [] => st_ret []
  | x :: l' => (y <- f x ;; ys <- map_st f l' ;; st_ret (y :: ys))%st
  end.

Fixpoint for_each {A} (f : A -> ST unit) (l : list A) : ST unit :=
  match l with
  | [] => st_ret tt
  | x :: l' => (f x ;;; for_each f l')%st
  end.

Fixpoint fold_st {A B} (f : A -> B -> ST A) (a : A) (l : list B) : ST A :=
  match l with
  | [] => st_ret a
  | x :: l' => (a' <- f a x ;; fold_st f a' l')%st
  end.

(** Modelled from the spec: [copy_nested_dicts] of
    [ldm_patched/modules/patcher_extension.py] is not among the sources.
    The spec calls it a "deep copy - later merges must not mutate the
    primary resource's originals": every dict and list below the argument
    is built anew, leaves are shared.  [fuel] bounds the nesting. *)
Fixpoint copy_nested_dicts (fuel : nat) (v : val) {struct fuel} : ST val :=
  match fuel with
  | O => match v with
         | Ref _ => st_fail
         | _ => st_ret v
         end
  | S fuel' =>
      match v with
      | Ref l =>
          (o <- load l ;;
           match o with
           | DictObj items =>
               items' <- map_st (fun kv =>
                                   v' <- copy_nested_dicts fuel' (snd kv) ;;
                                   st_ret (fst kv, v')) items ;;
               l' <- alloc (DictObj items') ;;
               st_ret (Ref l')
           | ListObj items =>
               items' <- map_st (copy_nested_dicts fuel') items ;;
               l' <- alloc (ListObj items') ;;
               st_ret (Ref l')
           end)%st
      | _ => st_ret v
      end
  end.

(** Modelled from the spec: [merge_nested_dicts(dict1, dict2,
    copy_dict1=False)] of the same absent file.  The spec: the merge is
    "non-destructive toward what is already in [dict1] - existing entries
    at a given path are combined with, not replaced by, incoming entries;
    if both are sequences, concatenate; if both are mappings, merge
    recursively; otherwise the incoming value is ignored and the existing
    one wins".  [dict1] is updated in place; an entry [dict1] does not have
    yet is taken over from [dict2] as it is. *)
Fixpoint merge_nested_dicts (fuel : nat) (dict1 dict2 : val) {struct fuel}
    : ST unit :=
  match fuel with
  | O => st_fail
  | S fuel' =>
      match dict1, dict2 with
      | Ref l1, Ref l2 =>
          (o2 <- load l2 ;;
           match o2 with
           | DictObj items2 =>
               for_each
                 (fun kv =>
                    o1 <- load l1 ;;
                    match o1 with
                    | DictObj items1 =>
                        match dict_get items1 (fst kv) with
                        | None =>
                            write l1 (DictObj (dict_set items1 (fst kv) (snd kv)))
                        | Some (Ref a) =>
                            match snd kv with
                            | Ref b =>
                                oa <- load a ;;
                                ob <- load b ;;
                                match oa, ob with
                                | DictObj _, DictObj _ =>
                                    merge_nested_dicts fuel' (Ref a) (Ref b)
                                | ListObj xs, ListObj ys =>
                                    write a (ListObj (xs ++ ys))
                                | _, _ => st_ret tt
                                end
                            | _ => st_ret tt
                            end
                        | Some _ => st_ret tt
                        end
                    | ListObj _ => st_fail
                    end)
                 items2
           | ListObj _ => st_fail
           end)%st
      | _, _ => st_fail
      end
  end.

(** ** The primary resource *)

Definition shape := list Z.

(** The fields of the two classes live in modules of their own, because the
    code has local names that coincide with them ([model.model],
    [memory_required]). *)
Module model_base.
Record BaseModel : Type := mkBaseModel {
  extra_conds_shapes : Cond -> dict shape;
  memory_required : shape -> dict (list shape) -> Z
}.
End model_base.
Abbreviation BaseModel := model_base.BaseModel.

Module model_patcher.
Record ModelPatcher : Type := mkModelPatcher {
  self : ref;
  model : BaseModel;
  model_dtype : dtype;
  get_nested_additional_models : list ref;
  wrappers : val;
  callbacks : val
}.
End model_patcher.
Abbreviation ModelPatcher := model_patcher.ModelPatcher.

(** [model_options]: [None], or a dict of which the code reads the key
    ["registered_hooks"] ([None]: key absent). *)
Record ModelOptions : Type := mkModelOptions {
  registered_hooks : option hooks.HookGroup
}.

(** What [prepare_model_patcher] calls on the hooks and on the primary
    resource.  Both live outside this module; they are given the patcher,
    the options and the registry so far, may update the store, and give
    back the registry. *)
Record HookCalls : Type := mkHookCalls {
  add_hook_patches :
    hooks.Hook -> ModelPatcher -> val -> hooks.HookGroup -> ST hooks.HookGroup;
  register_all_hook_patches :
    ModelPatcher -> hooks.HookGroup -> val -> hooks.HookGroup -> ST hooks.HookGroup
}.

(** ** Effects *)

Inductive event : Type :=
| LoadModelsGpu (models : list ref) (memory_required minimum_memory_required : Z)
| Cleanup (m : ref).

(** ** The functions of sampler_helpers.py *)

Definition get_models_from_cond {A} (cond : list Cond)
    (model_type : Cond -> option (pyval A)) : list A :=
  fold_left (fun models c =>
               match model_type c with
               | Some (PyList xs) => models ++ xs
               | Some (Single x) => models ++ [x]
               | None => models
               end) cond [].

(** [x[1]] on a tuple. *)
Definition item1 (x : list ref) : result ref :=
  match nth_error x 1 with
  | Some y => Ok y
  | None => Raise IndexError
  end.

Definition call {A} (method : option A) : result A :=
  match method with
  | Some f => Ok f
  | None => Raise AttributeError
  end.

Section WithSetIteration.

Context {SI : SetIteration}.

Definition get_additional_models (h : heap) (conds : Conds) (dt : dtype)
    : result (list ref * Z) :=
  let '(cnets, gligen, add_models) :=
    fold_left (fun '(cnets, gligen, add_models) kv =>
                 (cnets ++ get_models_from_cond (snd kv) key_control,
                  gligen ++ get_models_from_cond (snd kv) key_gligen,
                  add_models ++ get_models_from_cond (snd kv) key_additional_models))
              conds ([], [], []) in
  let control_nets := set_iter cnets in
  (' (control_models, inference_memory) <-
     foldM (fun (acc : list ref * Z) m =>
              let '(control_models, inference_memory) := acc in
              ms <- call (get_models (h m)) ;;
              imr <- call (inference_memory_requirements (h m)) ;;
              Ok (control_models ++ ms, (inference_memory + imr dt)%Z))
           ([], 0%Z) control_nets ;;
   gligen <- mapM item1 gligen ;;
   Ok (control_models ++ gligen ++ add_models, inference_memory))%py.

Definition get_additional_models_from_model_options
    (model_options : option ModelOptions) : list ref :=
  match model_options with
  | Some opts =>
      match registered_hooks opts with
      | Some registered =>
          fold_left (fun models hook => models ++ hooks.models hook)
                    (hooks.get_type registered hooks.AdditionalModels) []
      | None => []
      end
  | None => []
  end.

(** Each [m.cleanup()] call is one [Cleanup m] event. *)
Definition cleanup_additional_models (h : heap) (models : list ref) : list event :=
  fold_left (fun trace m =>
               if has_cleanup (h m) then trace ++ [Cleanup m] else trace)
            models [].

Definition math_prod (v : shape) : Z := fold_left Z.mul v 1%Z.

(** [l[0]]. *)
Definition item0 {A} (l : list A) : result A :=
  match l with
  | x :: _ => Ok x
  | [] => Raise IndexError
  end.

(** [cond_shapes[k].append(v)] on a [defaultdict(list)]. *)
Definition defaultdict_append {V} (d : dict (list V)) (k : string) (v : V)
    : dict (list V) :=
  match dict_get d k with
  | Some l => dict_set d k (l ++ [v])
  | None => dict_set d k [v]
  end.

(** The body of the innermost loop of [estimate_memory]. *)
Definition estimate_memory_item
    (acc : dict (list shape) * dict (list shape)) (kv : string * shape)
    : result (dict (list shape) * dict (list shape)) :=
  let '(cond_shapes, cond_shapes_min) := acc in
  let '(k, v) := kv in
  let cond_shapes := defaultdict_append cond_shapes k v in
  match dict_get cond_shapes_min k with
  | None => Ok (cond_shapes, dict_set cond_shapes_min k [v])
  | Some cur =>
      (w <- item0 cur ;;
       if (math_prod w <? math_prod v)%Z
       then Ok (cond_shapes, dict_set cond_shapes_min k [v])
       else Ok (cond_shapes, cond_shapes_min))%py
  end.

Definition estimate_memory (model : ModelPatcher) (noise_shape : shape)
    (conds : Conds) : result (Z * Z) :=
  (' (cond_shapes, cond_shapes_min) <-
     foldM (fun acc kv =>
              foldM (fun acc cond =>
                       foldM estimate_memory_item acc
                             (model_base.extra_conds_shapes (model_patcher.model model) cond))
                    acc (snd kv))
           ([], []) conds ;;
   n0 <- item0 noise_shape ;;
   let memory_required :=
     model_base.memory_required (model_patcher.model model) ((n0 * 2)%Z :: tl noise_shape) cond_shapes in
   let minimum_memory_required :=
     model_base.memory_required (model_patcher.model model) (n0 :: tl noise_shape) cond_shapes_min in
   Ok (memory_required, minimum_memory_required))%py.

(** The device manager is outside this module: [load_models_gpu] stands for
    its answer to a request. *)
Definition DeviceManager := list ref -> Z -> Z -> result unit.

(** The events of a run, then how it ended. *)
Definition _prepare_sampling (load_models_gpu : DeviceManager) (h : heap)
    (model : ModelPatcher) (noise_shape : shape) (conds : Conds)
    (model_options : option ModelOptions)
    : list event * result (BaseModel * Conds * list ref) :=
  match get_additional_models h conds (model_patcher.model_dtype model) with
  | Raise e => ([], Raise e)
  | Ok (models, inference_memory) =>
      let models := models ++ get_additional_models_from_model_options model_options in
      let models := models ++ model_patcher.get_nested_additional_models model in
      match estimate_memory model noise_shape conds with
      | Raise e => ([], Raise e)
      | Ok (memory_required, minimum_memory_required) =>
          let to_load := model_patcher.self model :: models in
          let required := (memory_required + inference_memory)%Z in
          let minimum := (minimum_memory_required + inference_memory)%Z in
          ([LoadModelsGpu to_load required minimum],
           (_ <- load_models_gpu to_load required minimum ;;
            let real_model := model_patcher.model model in
            Ok (real_model, conds, models))%py)
      end
  end.

Definition cleanup_models (h : heap) (conds : Conds) (models : list ref)
    : list event :=
  let trace := cleanup_additional_models h models in
  let control_cleanup :=
    fold_left (fun control_cleanup kv =>
                 control_cleanup ++ get_models_from_cond (snd kv) key_control)
              conds [] in
  trace ++ cleanup_additional_models h (set_iter control_cleanup).

(** [get_extra_hooks_from_cnet], the inner function of [get_hooks_from_cond].
    Every link followed is one more nested call, so the function carries the
    number of nested calls it may still make; [None] in the result says that
    this number was used up before a node without a previous link was
    found.  Next to [_list] the function reports the nodes it was called on,
    in order: one entry per look at a node's [extra_hooks]. *)
Fixpoint get_extra_hooks_from_cnet (depth : nat) (h : heap) (cnet : ref)
    (_list : list hooks.HookGroup) : list ref * option (list hooks.HookGroup) :=
  match depth with
  | O => ([], None)
  | S depth' =>
      let _list :=
        match extra_hooks (h cnet) with
        | Some g => _list ++ [g]
        | None => _list
        end in
      match previous_controlnet (h cnet) with
      | None => ([cnet], Some _list)
      | Some prev =>
          let '(visited, r) := get_extra_hooks_from_cnet depth' h prev _list in
          (cnet :: visited, r)
      end
  end.

(** The loop [for base_cnet in cnets] of [get_hooks_from_cond]. *)
Fixpoint extra_hooks_of_cnets (depth : nat) (h : heap) (cnets : list ref)
    (hooks_list : list hooks.HookGroup)
    : list ref * option (list hooks.HookGroup) :=
  match cnets with
  | [] => ([], Some hooks_list)
  | base_cnet :: cnets' =>
      match get_extra_hooks_from_cnet depth h base_cnet hooks_list with
      | (visited, None) => (visited, None)
      | (visited, Some hooks_list') =>
          let '(visited', r) := extra_hooks_of_cnets depth h cnets' hooks_list' in
          (visited ++ visited', r)
      end
  end.

Definition get_hooks_from_cond (depth : nat) (h : heap) (cond : list Cond)
    (full_hooks : hooks.HookGroup) : list ref * option hooks.HookGroup :=
  let '(full_hooks, cnets) :=
    fold_left (fun '(full_hooks, cnets) c =>
                 let full_hooks :=
                   match c_hooks c with
                   | Some g => fold_left hooks.add (hooks.hooks g) full_hooks
                   | None => full_hooks
                   end in
                 let cnets :=
                   match c_control c with
                   | Some cnet => cnets ++ [cnet]
                   | None => cnets
                   end in
                 (full_hooks, cnets))
              cond (full_hooks, []) in
  let cnets := set_iter cnets in
  match extra_hooks_of_cnets depth h cnets [] with
  | (visited, None) => (visited, None)
  | (visited, Some hooks_list) =>
      match hooks.combine_all_hooks hooks_list with
      | Some extra_hooks =>
          (visited, Some (fold_left hooks.add (hooks.hooks extra_hooks) full_hooks))
      | None => (visited, Some full_hooks)
      end
  end.

(** Lines 158-160 of [prepare_model_patcher]: a fresh group, filled by one
    call of [get_hooks_from_cond] per branch. *)
Fixpoint collect_hooks (depth : nat) (h : heap) (conds : Conds)
    (hooks : hooks.HookGroup) : list ref * option hooks.HookGroup :=
  match conds with
  | [] => ([], Some hooks)
  | (_, cond) :: conds' =>
      match get_hooks_from_cond depth h cond hooks with
      | (visited, None) => (visited, None)
      | (visited, Some hooks') =>
          let '(visited', r) := collect_hooks depth h conds' hooks' in
          (visited ++ visited', r)
      end
  end.

(** [model_options] is the dict the caller passes in; the result is its
    ["to_load_options"] dict. *)
Definition prepare_model_patcher (depth fuel : nat) (calls : HookCalls)
    (h : heap) (model : ModelPatcher) (conds : Conds) (model_options : val)
    : ST val :=
  match snd (collect_hooks depth h conds hooks.empty) with
  | None => st_fail
  | Some hooks =>
      (w <- copy_nested_dicts fuel (model_patcher.wrappers model) ;;
       transformer_options <- getitem model_options "transformer_options" ;;
       setitem transformer_options "wrappers" w ;;;
       c <- copy_nested_dicts fuel (model_patcher.callbacks model) ;;
       transformer_options <- getitem model_options "transformer_options" ;;
       setitem transformer_options "callbacks" c ;;;
       registered <-
         fold_st (fun registered hook =>
                    add_hook_patches calls hook model model_options registered)
                 hooks.empty
                 (hooks.get_type hooks hooks.TransformerOptions) ;;
       registered <-
         fold_st (fun registered hook =>
                    add_hook_patches calls hook model model_options registered)
                 registered
                 (hooks.get_type hooks hooks.AdditionalModels) ;;
       registered <-
         register_all_hook_patches calls model hooks model_options registered ;;
       (if 0 <? List.length (hooks.hooks registered)
        then setitem model_options "registered_hooks" (Group registered)
        else st_ret tt) ;;;
       to_load_options <- setdefault_dict model_options "to_load_options" ;;
       for_each (fun wc_name =>
                   dict1 <- setdefault_dict to_load_options wc_name ;;
                   transformer_options <- getitem model_options "transformer_options" ;;
                   dict2 <- getitem transformer_options wc_name ;;
                   merge_nested_dicts fuel dict1 dict2)
                ["wrappers"%string; "callbacks"%string] ;;;
       st_ret to_load_options)%st
  end.

End WithSetIteration.

(** ** What the conditioning set refers to

    The vocabulary of the statements below: every reference a conditioning
    set makes, over all branches and entries, in order of appearance. *)

Definition pyval_items {A} (v : option (pyval A)) : list A :=
  match v with
  | Some (PyList xs) => xs
  | Some (Single x) => [x]
  | None => []
  end.

Definition entries (conds : Conds) : list Cond := flat_map snd conds.

Definition control_refs (conds : Conds) : list ref :=
  flat_map (fun c => pyval_items (key_control c)) (entries conds).

Definition gligen_items (conds : Conds) : list (list ref) :=
  flat_map (fun c => pyval_items (key_gligen c)) (entries conds).

Definition additional_refs (conds : Conds) : list ref :=
  flat_map (fun c => pyval_items (key_additional_models c)) (entries conds).

(** The second component of every gligen item that has one. *)
Definition gligen_payloads (items : list (list ref)) : list ref :=
  flat_map (fun x => match nth_error x 1 with
                     | Some y => [y]
                     | None => []
                     end) items.

Definition is_additional_models (hook : hooks.Hook) : bool :=
  hooks.EnumHookType_eqb (hooks.hook_type hook) hooks.AdditionalModels.

(** The registered hooks of AdditionalModels type, and their models. *)
Definition hook_models_hooks (model_options : option ModelOptions)
    : list hooks.Hook :=
  match model_options with
  | Some (mkModelOptions (Some registered)) =>
      filter is_additional_models (hooks.hooks registered)
  | _ => []
  end.

Definition hook_models (model_options : option ModelOptions) : list ref :=
  flat_map hooks.models (hook_models_hooks model_options).

Definition models_of (h : heap) (m : ref) : list ref :=
  match get_models (h m) with
  | Some ms => ms
  | None => []
  end.

Definition hint_of (h : heap) (dt : dtype) (m : ref) : Z :=
  match inference_memory_requirements (h m) with
  | Some f => f dt
  | None => 0%Z
  end.

Definition sumZ (l : list Z) : Z := fold_right Z.add 0%Z l.

(** Membership in the union the auxiliary resources are drawn from. *)
Definition in_resource_union (h : heap) (conds : Conds)
    (model_options : option ModelOptions) (model : ModelPatcher) (r : ref) : Prop :=
  (exists root, In root (control_refs conds) /\ In r (models_of h root))
  \/ (exists x, In x (gligen_items conds) /\ nth_error x 1 = Some r)
  \/ In r (additional_refs conds)
  \/ (exists hook, In hook (hook_models_hooks model_options) /\ In r (hooks.models hook))
  \/ In r (model_patcher.get_nested_additional_models model).

(** How often [m.cleanup()] was called in a trace. *)
Definition cleanup_calls (trace : list event) (m : ref) : nat :=
  List.length (filter (fun e => match e with
                           | Cleanup m' => Pos.eqb m' m
                           | LoadModelsGpu _ _ _ => false
                           end) trace).

(** One admissible iteration order, used to run the code on examples. *)
#[refine] Instance nodup_iteration : SetIteration :=
  {| set_iter := nodup Pos.eq_dec |}.
Proof.
  - intro l. apply NoDup_nodup.
  - intros l x. apply nodup_In.
Defined.

(** ** What the estimator is asked to pass on

    Written from the description of the estimator, not from its loop: the
    shapes the primary resource reports, the bucket of a name, the names in
    order of first appearance, and the first shape of largest volume. *)

Definition shapes_seen (model : ModelPatcher) (conds : Conds)
    : list (string * shape) :=
  flat_map (model_base.extra_conds_shapes (model_patcher.model model))
           (entries conds).

Definition bucket (k : string) (items : list (string * shape)) : list shape :=
  map snd (filter (fun kv => String.eqb (fst kv) k) items).

Fixpoint bucket_names (items : list (string * shape)) : list string :=
  match items with
  | [] => []
  | (k, _) :: items' =>
      k :: filter (fun k' => negb (String.eqb k' k)) (bucket_names items')
  end.

(** The first shape whose volume no other shape of the list exceeds: the
    head stays unless a later shape is strictly larger. *)
Fixpoint first_largest (l : list shape) : option shape :=
  match l with
  | [] => None
  | v :: l' =>
      match first_largest l' with
      | None => Some v
      | Some w => if (math_prod v <? math_prod w)%Z then Some w else Some v
      end
  end.

Definition tabulate {V} (names : list string) (f : string -> V) : dict V :=
  map (fun k => (k, f k)) names.

Definition full_buckets (items : list (string * shape)) : dict (list shape) :=
  tabulate (bucket_names items) (fun k => bucket k items).

Definition largest_buckets (items : list (string * shape)) : dict (list shape) :=
  tabulate (bucket_names items)
           (fun k => match first_largest (bucket k items) with
                     | Some v => [v]
                     | None => []
                     end).

(** [l1] is [l2] with some elements left out. *)
Inductive subseq {A} : list A -> list A -> Prop :=
| subseq_nil : subseq [] []
| subseq_skip x l1 l2 : subseq l1 l2 -> subseq l1 (x :: l2)
| subseq_keep x l1 l2 : subseq l1 l2 -> subseq (x :: l1) (x :: l2).

(** Same bucket names, and every bucket of [d1] is part of that of [d2]. *)
Definition buckets_le (d1 d2 : dict (list shape)) : Prop :=
  Forall2 (fun kv1 kv2 => fst kv1 = fst kv2 /\ subseq (snd kv1) (snd kv2)) d1 d2.

Definition nonneg_shape (v : shape) : Prop := Forall (fun n => (0 <= n)%Z) v.

(** A cost function under which a larger batch and more conditioning shapes
    never cost less, as far as shapes without negative dimensions go. *)
Definition cost_monotone (f : shape -> dict (list shape) -> Z) : Prop :=
  forall b b' rest d d',
    (0 <= b <= b')%Z -> nonneg_shape rest ->
    (forall kv, In kv d' -> Forall nonneg_shape (snd kv)) ->
    buckets_le d d' ->
    (f (b :: rest) d <= f (b' :: rest) d')%Z.

(** ** Control chains *)

(** [chain h n nodes]: following the previous links from [n] ends at a node
    without one, and [nodes] are the nodes met on the way, [n] first. *)
Inductive chain (h : heap) : ref -> list ref -> Prop :=
| chain_last n :
    previous_controlnet (h n) = None -> chain h n [n]
| chain_link n prev nodes :
    previous_controlnet (h n) = Some prev -> chain h prev nodes ->
    chain h n (n :: nodes).

(** The node [k] links after [n], if the chain is that long. *)
Fixpoint nth_previous (h : heap) (k : nat) (n : ref) : option ref :=
  match k with
  | O => Some n
  | S k' =>
      match previous_controlnet (h n) with
      | Some prev => nth_previous h k' prev
      | None => None
      end
  end.

(** The chain from [n] runs into a cycle: some node [m] on it comes back to
    itself after [k] links. *)
Definition has_cycle (h : heap) (n : ref) : Prop :=
  exists i m k, nth_previous h i n = Some m /\ 0 < k /\ nth_previous h k m = Some m.

(** The extra hook groups of the nodes that have one. *)
Definition extra_groups (h : heap) (nodes : list ref) : list hooks.HookGroup :=
  flat_map (fun n => match extra_hooks (h n) with
                     | Some g => [g]
                     | None => []
                     end) nodes.

(** The control objects and the hooks of the entries of one branch. *)
Definition branch_controls (cond : list Cond) : list ref :=
  flat_map (fun c => pyval_items (key_control c)) cond.

Definition branch_hooks (cond : list Cond) : list hooks.Hook :=
  flat_map (fun c => match c_hooks c with
                     | Some g => hooks.hooks g
                     | None => []
                     end) cond.

(** ** Sharing in the store *)

Definition val_refs (v : val) : list loc :=
  match v with
  | Ref l => [l]
  | _ => []
  end.

Definition obj_refs (o : obj) : list loc :=
  match o with
  | DictObj items => flat_map (fun kv => val_refs (snd kv)) items
  | ListObj items => flat_map val_refs items
  end.

(** The objects one gets to from [v] by following references. *)
Inductive reach (s : store) (v : val) : loc -> Prop :=
| reach_root l : v = Ref l -> reach s v l
| reach_step l o l' :
    reach s v l -> nth_error s l = Some o -> In l' (obj_refs o) -> reach s v l'.

(** No reference of the store leads outside it. *)
Definition well_formed (s : store) : Prop :=
  forall l o l', nth_error s l = Some o -> In l' (obj_refs o) -> l' < List.length s.

Definition region := loc -> Prop.

Definition within (O : region) (v : val) : Prop :=
  forall l, In l (val_refs v) -> O l.

Definition allocated (s : store) (O : region) : Prop :=
  forall l, O l -> l < List.length s.

Definition closed (s : store) (O : region) : Prop :=
  forall l o l', O l -> nth_error s l = Some o -> In l' (obj_refs o) -> O l'.

(** A computation acts through [v] when all it changes lies in what [v]
    leads to: given any set of objects that holds [v] and all their
    references, it leaves the objects outside the set as they are, and what
    the set and the new objects refer to afterwards is again in the set or
    new. *)
Definition acts_through {A} (v : val) (m : ST A) : Prop :=
  forall s (O : region),
    allocated s O -> closed s O -> within O v ->
    let s' := fst (m s) in
    List.length s <= List.length s'
    /\ (forall l, l < List.length s -> ~ O l -> nth_error s' l = nth_error s l)
    /\ closed s' (fun l => O l \/ (List.length s <= l < List.length s')).

(** The nested value a reference stands for, down to [fuel] levels. *)
#[warnings="-register-all"]
Inductive tree : Type :=
| TAtom (a : nat)
| TGroup (g : hooks.HookGroup)
| TDict (items : list (string * tree))
| TList (items : list tree).

Fixpoint option_map_all {A B} (f : A -> option B) (l : list A) : option (list B) :=
  match l with
  | [] => Some []
  | x :: l' =>
      match f x, option_map_all f l' with
      | Some y, Some ys => Some (y :: ys)
      | _, _ => None
      end
  end.

Fixpoint snapshot (fuel : nat) (s : store) (v : val) : option tree :=
  match v with
  | Atom a => Some (TAtom a)
  | Group g => Some (TGroup g)
  | Ref l =>
      match fuel with
      | O => None
      | S fuel' =>
          match nth_error s l with
          | Some (DictObj items) =>
              option_map TDict
                (option_map_all (fun kv => option_map (pair (fst kv))
                                             (snapshot fuel' s (snd kv))) items)
          | Some (ListObj items) =>
              option_map TList (option_map_all (snapshot fuel' s) items)
          | None => None
          end
      end
  end.

(** The invariant of a run that started in store [s0], for the objects [M]
    that are to stay as they are and the objects [O] the run works on. *)
Section Invariant.

Variables (s0 : store) (M : region).

Definition Inv (s : store) (O : region) : Prop :=
  List.length s0 <= List.length s
  /\ allocated s O
  /\ closed s O
  /\ (forall l, O l -> ~ M l)
  /\ (forall l, M l -> nth_error s l = nth_error s0 l).

(** From a state that satisfies the invariant and [pre], the computation
    ends in a state that satisfies it for a set that has only grown, and
    [post] holds of the value returned. *)
Definition safe {A} (m : ST A) (pre : region -> Prop)
    (post : A -> region -> Prop) : Prop :=
  forall s O,
    Inv s O -> pre O ->
    exists O',
      (forall l, O l -> O' l)
      /\ Inv (fst (m s)) O'
      /\ forall a, snd (m s) = Some a -> post a O'.

Definition monotone (P : region -> Prop) : Prop :=
  forall O O' : region, (forall l, O l -> O' l) -> P O -> P O'.

End Invariant.

(** ** Small concrete inputs *)

Module examples.

(** A model-like object with no capability at all. *)
Definition plain : Obj := mkObj None None false None None.

(** A control object: its own models, a constant memory hint, a cleanup
    method, and possibly a previous link. *)
Definition cnet (ms : list ref) (hint : Z) (prev : option ref) : Obj :=
  mkObj (Some ms) (Some (fun _ => hint)) true None prev.

(** Object 5 is a control object that loads model 6; every other object
    is plain. *)
Definition heap1 : heap :=
  fun r => if Pos.eqb r 5 then cnet [6%positive] 100 None else plain.

Definition entry (ctl : option ref) (add : option (pyval ref)) : Cond :=
  mkCond ctl None add None [].

(** The same extra model 7 attached in both branches. *)
Definition conds_shared_model : Conds :=
  [("positive"%string, [entry None (Some (Single 7%positive))]);
   ("negative"%string, [entry None (Some (Single 7%positive))])].

(** One entry whose control object is 5. *)
Definition conds_control5 : Conds :=
  [("positive"%string, [entry (Some 5%positive) None])].

(** One entry whose control object is the plain object 9. *)
Definition conds_control9 : Conds :=
  [("positive"%string, [entry (Some 9%positive) None])].

(** A primary resource that reports the shapes found in the payload of an
    entry, and whose cost is the volume of the output shape plus the volumes
    of the conditioning shapes it is given. *)
Definition base : BaseModel :=
  model_base.mkBaseModel
    (fun c => c_payload c)
    (fun s cond_shapes =>
       (math_prod s + sumZ (map (fun kv => sumZ (map math_prod (snd kv))) cond_shapes))%Z).

Definition patcher : ModelPatcher :=
  model_patcher.mkModelPatcher 1%positive base float16 [] (Ref 0) (Ref 3).

Definition always_ok : DeviceManager := fun _ _ _ => Ok tt.

(** A store: the wrappers of the patcher (0, nested dict 1, list 2), its
    callbacks (3), and the options of a request (4) with their
    ["transformer_options"] (5). *)
Definition store1 : store :=
  [DictObj [("outer_sample"%string, Ref 1)];
   DictObj [("key"%string, Ref 2)];
   ListObj [Atom 7];
   DictObj [];
   DictObj [("transformer_options"%string, Ref 5)];
   DictObj []].

(** A store in which the options already hold the wrappers dict of the
    patcher itself (object 0) as their ["to_load_options"]["wrappers"]. *)
Definition store_aliased : store :=
  [DictObj [("outer_sample"%string, Ref 1)];
   ListObj [Atom 7];
   DictObj [];
   DictObj [("transformer_options"%string, Ref 4);
            ("to_load_options"%string, Ref 5)];
   DictObj [];
   DictObj [("wrappers"%string, Ref 0)]].

Definition patcher_aliased : ModelPatcher :=
  model_patcher.mkModelPatcher 1%positive base float16 [] (Ref 0) (Ref 2).

(** Hooks that register themselves and leave the store alone. *)
Definition quiet_calls : HookCalls :=
  mkHookCalls (fun hook _ _ registered => st_ret (hooks.add registered hook))
              (fun _ _ _ registered => st_ret registered).

(** Object 3 is its own previous control object. *)
Definition loop_heap : heap :=
  fun r => if Pos.eqb r 3 then cnet [] 0 (Some 3%positive) else plain.

Definition hookA : hooks.Hook := hooks.mkHook 1 hooks.TransformerOptions [].
Definition hookB : hooks.Hook := hooks.mkHook 2 hooks.Weight [].
Definition hookC : hooks.Hook := hooks.mkHook 3 hooks.Weight [].

(** A chain of two nodes: 10 links to 11; node 11 carries the extra hook
    [hookC]. *)
Definition chain_heap : heap :=
  fun r => if Pos.eqb r 10 then cnet [] 0 (Some 11%positive)
           else if Pos.eqb r 11
                then mkObj (Some []) (Some (fun _ => 0%Z)) true
                           (Some (hooks.mkHookGroup [hookC])) None
                else plain.

(** The positive branch refers to the head of the chain, the negative branch
    to its tail. *)
Definition conds_shared_tail : Conds :=
  [("positive"%string,
    [mkCond (Some 10%positive) None None (Some (hooks.mkHookGroup [hookA])) []]);
   ("negative"%string,
    [mkCond (Some 11%positive) None None (Some (hooks.mkHookGroup [hookB])) []])].

(** The scenario of the spec: bucket "context" with [2,4,8] from one
    branch and [2,4,16] from the other. *)
Definition conds_context : Conds :=
  [("positive"%string,
    [mkCond None None None None [("context"%string, [2; 4; 8]%Z)]]);
   ("negative"%string,
    [mkCond None None None None [("context"%string, [2; 4; 16]%Z)]])].

End examples.

(** ** Normalising conditioning: [convert_cond]

    The input of [convert_cond] is a list of pairs [c]: [c[0]] is a tensor
    or [None], [c[1]] a dict.  The values of that dict are tensors, dicts of
    model conds ([{}] is [ModelConds []]), identifiers, or other objects. *)

Inductive cond_value : Type :=
| Tensor (id : nat)
| ModelConds (d : dict nat)
| Uuid (u : N)
| Object (r : ref).

(** [uuid.uuid4()] draws a new identifier at every call: [uuid4 n] is what
    call number [n] returns, and [calls] counts the calls made so far. *)
Definition convert_cond (uuid4 : nat -> N) (calls : nat)
    (cond : list (option cond_value * dict cond_value))
    : list (dict cond_value) :=
  fst (fold_left
         (fun (acc : list (dict cond_value) * nat) c =>
            let '(out, calls) := acc in
            let temp := snd c in
            let model_conds :=
              match dict_get temp "model_conds" with
              | Some v => v
              | None => ModelConds []
              end in
            let temp :=
              match fst c with
              | Some t => dict_set temp "cross_attn" t
              | None => temp
              end in
            let temp := dict_set temp "model_conds" model_conds in
            let temp := dict_set temp "uuid" (Uuid (uuid4 calls)) in
            (out ++ [temp], S calls))
         cond ([], calls)).

(** The identifier of a converted entry. *)
Definition uuid_of (d : dict cond_value) : option cond_value := dict_get d "uuid".

(** The dict [convert_cond] builds for one pair, given the identifier drawn
    for it. *)
Definition converted (u : N) (c : option cond_value * dict cond_value)
    : dict cond_value :=
  let temp := snd c in
  let model_conds :=
    match dict_get temp "model_conds" with
    | Some v => v
    | None => ModelConds []
    end in
  let temp :=
    match fst c with
    | Some t => dict_set temp "cross_attn" t
    | None => temp
    end in
  dict_set (dict_set temp "model_conds" model_conds) "uuid" (Uuid u).

Module examples2.

(** Two pairs: one with a tensor and a dict that already has model conds, a
    control object and an old identifier; one without a tensor. *)
Definition pairs : list (option cond_value * dict cond_value) :=
  [(Some (Tensor 1),
    [("model_conds"%string, ModelConds [("y"%string, 3)]);
     ("control"%string, Object 5%positive);
     ("uuid"%string, Uuid 99)]);
   (None, [("pooled_output"%string, Tensor 2)])].

End examples2.

(** ** Vocabulary for the outcome of the collection *)

(** A control object has both methods [get_additional_models] calls. *)
Definition has_control_methods (h : heap) (m : ref) : Prop :=
  get_models (h m) <> None /\ inference_memory_requirements (h m) <> None.

Definition has_cleanup_method (h : heap) (m : ref) : bool := has_cleanup (h m).

Module examples3.

(** The same two entries, once in two branches and once in one branch
    under another name. *)
Definition entry_a : Cond :=
  mkCond (Some 5%positive) None (Some (Single 7%positive)) None
         [("context"%string, [2; 4; 8]%Z)].

Definition entry_b : Cond :=
  mkCond None None None None [("context"%string, [2; 4; 16]%Z)].

Definition two_branches : Conds :=
  [("positive"%string, [entry_a]); ("negative"%string, [entry_b])].

Definition one_branch : Conds := [("all"%string, [entry_a; entry_b])].

(** A branch whose entries carry hooks but no control object. *)
Definition hooks_only : list Cond :=
  [mkCond None None None (Some (hooks.mkHookGroup [examples.hookA; examples.hookB])) [];
   mkCond None None None (Some (hooks.mkHookGroup [examples.hookB])) []].

(** Options without a ["transformer_options"] key, in a store that also
    holds the registrations of the patcher (objects 0 to 3). *)
Definition store_no_key : store :=
  [DictObj [("outer_sample"%string, Ref 1)];
   DictObj [("key"%string, Ref 2)];
   ListObj [Atom 7];
   DictObj [];
   DictObj [("other"%string, Atom 1)]].

(** Hook capabilities that overwrite the options dict. *)
Definition loud_calls : HookCalls :=
  mkHookCalls
    (fun hook _ options registered =>
       (setitem options "touched" (Atom 1) ;;; st_ret (hooks.add registered hook))%st)
    (fun _ _ options registered =>
       (setitem options "touched" (Atom 2) ;;; st_ret registered)%st).

End examples3.

(** A computation that leaves every object of the store as it is and at
    most adds objects. *)
Definition only_allocates {A} (m : ST A) : Prop :=
  forall s, exists added, fst (m s) = s ++ added.

Module examples4.

(** The patcher of the examples with two nested additional models. *)
Definition nested_patcher : ModelPatcher :=
  model_patcher.mkModelPatcher 1%positive examples.base float16
    [8%positive; 9%positive] (Ref 0) (Ref 3).

(** Options with one registered AdditionalModels hook that brings model 12. *)
Definition options_with_models : option ModelOptions :=
  Some (mkModelOptions
          (Some (hooks.mkHookGroup
                   [hooks.mkHook 4 hooks.AdditionalModels [12%positive]]))).

(** A branch that refers to both nodes of the chain of [examples.chain_heap]. *)
Definition head_and_tail : list Cond :=
  [mkCond (Some 10%positive) None None (Some (hooks.mkHookGroup [examples.hookA])) [];
   mkCond (Some 11%positive) None None None []].

(** Another admissible iteration order: the reverse of [nodup_iteration]. *)
#[refine] Instance reverse_iteration : SetIteration :=
  {| set_iter := fun l => rev (nodup Pos.eq_dec l) |}.
Proof.
  - intro l. apply NoDup_rev, NoDup_nodup.
  - intros l x. rewrite <- in_rev. apply nodup_In.
Defined.

End examples4.

(** * Properties *)

Unset Implicit Arguments.

(** ** Loops as list functions *)

Lemma fold_left_app_flat_map {A B} (f : A -> list B) (l : list A) (init : list B) :
  fold_left (fun acc x => acc ++ f x) l init = init ++ flat_map f l.
Proof.
  revert init; induction l as [|x l IH]; intro init; simpl.
  - now rewrite app_nil_r.
  - now rewrite IH, app_assoc.
Qed.

Lemma get_models_from_cond_flat_map {A} (cond : list Cond)
    (model_type : Cond -> option (pyval A)) :
  get_models_from_cond cond model_type
  = flat_map (fun c => pyval_items (model_type c)) cond.
Proof.
  unfold get_models_from_cond.
  enough (G : forall init,
             fold_left (fun models c =>
                          match model_type c with
                          | Some (PyList xs) => models ++ xs
                          | Some (Single x) => models ++ [x]
                          | None => models
                          end) cond init
             = init ++ flat_map (fun c => pyval_items (model_type c)) cond)
    by apply (G []).
  induction cond as [|c cond IH]; intro init; simpl.
  - now rewrite app_nil_r.
  - rewrite IH, app_assoc. f_equal. f_equal.
    destruct (model_type c) as [[x|xs]|]; simpl; auto using app_nil_r.
Qed.

Lemma flat_map_entries {B} (f : Cond -> list B) (conds : Conds) :
  flat_map (fun kv => flat_map f (snd kv)) conds = flat_map f (entries conds).
Proof.
  unfold entries. induction conds as [|kv conds IH]; simpl; auto.
  now rewrite flat_map_app, IH.
Qed.

(** The first loop of [get_additional_models]. *)
Lemma collect_loop (conds : Conds) :
  fold_left (fun '(cnets, gligen, add_models) (kv : string * list Cond) =>
               (cnets ++ get_models_from_cond (snd kv) key_control,
                gligen ++ get_models_from_cond (snd kv) key_gligen,
                add_models ++ get_models_from_cond (snd kv) key_additional_models))
            conds ([], [], [])
  = (control_refs conds, gligen_items conds, additional_refs conds).
Proof.
  unfold control_refs, gligen_items, additional_refs.
  rewrite <- !flat_map_entries.
  enough (G : forall a b c,
             fold_left (fun '(cnets, gligen, add_models) (kv : string * list Cond) =>
               (cnets ++ get_models_from_cond (snd kv) key_control,
                gligen ++ get_models_from_cond (snd kv) key_gligen,
                add_models ++ get_models_from_cond (snd kv) key_additional_models))
               conds (a, b, c)
             = (a ++ flat_map (fun kv => flat_map (fun c => pyval_items (key_control c)) (snd kv)) conds,
                b ++ flat_map (fun kv => flat_map (fun c => pyval_items (key_gligen c)) (snd kv)) conds,
                c ++ flat_map (fun kv => flat_map (fun c => pyval_items (key_additional_models c)) (snd kv)) conds))
    by apply (G [] [] []).
  induction conds as [|kv conds IH]; intros a b c; simpl.
  - now rewrite !app_nil_r.
  - rewrite IH, !get_models_from_cond_flat_map, <- !app_assoc. reflexivity.
Qed.

Lemma mapM_item1_Ok (items : list (list ref)) (l : list ref) :
  mapM item1 items = Ok l -> l = gligen_payloads items.
Proof.
  unfold gligen_payloads.
  revert l; induction items as [|x items IH]; intros l; cbn [mapM flat_map].
  - now intros [= <-].
  - unfold item1 at 1. destruct (nth_error x 1) as [y|]; cbn [bind]; [|discriminate].
    destruct (mapM item1 items) as [ys|e]; cbn [bind]; [|discriminate].
    intros [= <-]. now rewrite (IH ys eq_refl).
Qed.

Lemma in_gligen_payloads (items : list (list ref)) (r : ref) :
  In r (gligen_payloads items) <-> exists x, In x items /\ nth_error x 1 = Some r.
Proof.
  unfold gligen_payloads. rewrite in_flat_map. split.
  - intros (x & Hx & Hr). exists x. split; auto.
    destruct (nth_error x 1); simpl in Hr; intuition congruence.
  - intros (x & Hx & Hr). exists x. split; auto. rewrite Hr. now left.
Qed.

Section Collection.

Context {SI : SetIteration}.
Variables (h : heap) (dt : dtype).

(** The body of the loop [for m in control_nets]. *)
Let control_step (acc : list ref * Z) (m : ref) : result (list ref * Z) :=
  let '(control_models, inference_memory) := acc in
  (ms <- call (get_models (h m)) ;;
   imr <- call (inference_memory_requirements (h m)) ;;
   Ok (control_models ++ ms, (inference_memory + imr dt)%Z))%py.

Lemma control_loop_Ok (l : list ref) (cm : list ref) (im : Z) (cm' : list ref) (im' : Z) :
  foldM control_step (cm, im) l = Ok (cm', im') ->
  cm' = cm ++ flat_map (models_of h) l
  /\ im' = (im + sumZ (map (hint_of h dt) l))%Z.
Proof.
  revert cm im; induction l as [|m l IH]; intros cm im; simpl.
  - intros [= <- <-]. simpl. rewrite app_nil_r. split; [reflexivity | lia].
  - unfold models_of at 1, hint_of at 1.
    destruct (get_models (h m)) as [ms|]; simpl; [|discriminate].
    destruct (inference_memory_requirements (h m)) as [imr|]; simpl; [|discriminate].
    intro H. apply IH in H as [-> ->]. rewrite app_assoc. split; [reflexivity | simpl; lia].
Qed.

Lemma get_additional_models_Ok (conds : Conds) (ms : list ref) (hint : Z) :
  get_additional_models h conds dt = Ok (ms, hint) ->
  ms = flat_map (models_of h) (set_iter (control_refs conds))
       ++ gligen_payloads (gligen_items conds) ++ additional_refs conds
  /\ hint = sumZ (map (hint_of h dt) (set_iter (control_refs conds))).
Proof.
  unfold get_additional_models. rewrite collect_loop.
  fold control_step.
  destruct (foldM control_step ([], 0%Z) (set_iter (control_refs conds)))
    as [[cm im]|e] eqn:E; simpl; [|discriminate].
  apply control_loop_Ok in E as [-> ->].
  destruct (mapM item1 (gligen_items conds)) as [g|e] eqn:G; simpl; [|discriminate].
  apply mapM_item1_Ok in G as ->.
  intros [= <- <-]. split; reflexivity.
Qed.

End Collection.

(** ** Models of registered hooks *)

Lemma get_additional_models_from_model_options_eq (model_options : option ModelOptions) :
  get_additional_models_from_model_options model_options = hook_models model_options.
Proof.
  unfold get_additional_models_from_model_options, hook_models, hook_models_hooks.
  destruct model_options as [[[registered|]]|]; try reflexivity.
  unfold hooks.get_type. fold is_additional_models.
  apply (fold_left_app_flat_map hooks.models).
Qed.

(** C10. [get_additional_models_from_model_options] gives the empty list
    when [model_options] is [None] or has no ["registered_hooks"] key;
    otherwise it gives the [models] lists of the registered hooks of
    AdditionalModels type, concatenated in the order of the hooks, and the
    hooks of any other type play no part: two registries with the same
    AdditionalModels hooks give the same list. *)
Theorem registered_hook_models :
  get_additional_models_from_model_options None = []
  /\ get_additional_models_from_model_options (Some (mkModelOptions None)) = []
  /\ (forall registered,
        get_additional_models_from_model_options
          (Some (mkModelOptions (Some registered)))
        = flat_map hooks.models
            (filter is_additional_models (hooks.hooks registered)))
  /\ (forall registered registered',
        filter is_additional_models (hooks.hooks registered)
        = filter is_additional_models (hooks.hooks registered') ->
        get_additional_models_from_model_options
          (Some (mkModelOptions (Some registered)))
        = get_additional_models_from_model_options
            (Some (mkModelOptions (Some registered')))).
Proof.
  repeat split; try reflexivity.
  - intro registered. apply get_additional_models_from_model_options_eq.
  - intros registered registered' E.
    rewrite !get_additional_models_from_model_options_eq.
    unfold hook_models, hook_models_hooks. now rewrite E.
Qed.

(** ** The load request *)

Lemma sumZ_Permutation (l l' : list Z) : Permutation l l' -> sumZ l = sumZ l'.
Proof. induction 1; simpl; lia. Qed.

Lemma in_hook_models (model_options : option ModelOptions) (r : ref) :
  In r (hook_models model_options)
  <-> exists hook, In hook (hook_models_hooks model_options) /\ In r (hooks.models hook).
Proof. unfold hook_models. apply in_flat_map. Qed.

Section Prepare.

Context {SI : SetIteration}.
Variables (load_models_gpu : DeviceManager) (h : heap).

(** C1, as the code has it.  Whenever [_prepare_sampling] reaches the device
    manager, the auxiliary resources it hands over (the list it also
    returns) are the concatenation of: the [get_models()] lists of the
    distinct control objects of the conditioning set, each control object
    taken once however many entries and branches refer to it; the second
    components of the gligen items; the additional models; the models of
    the registered AdditionalModels hooks; the nested additional models of
    the primary resource.  So a resource is in the list exactly when it is
    in the union of these.  (Nothing removes repeated resources from the
    concatenation.) *)
Theorem prepare_models_are_union (model : ModelPatcher) (noise_shape : shape)
    (conds : Conds) (model_options : option ModelOptions)
    (to_load : list ref) (required minimum : Z) :
  In (LoadModelsGpu to_load required minimum)
     (fst (_prepare_sampling load_models_gpu h model noise_shape conds model_options)) ->
  exists models roots,
    to_load = model_patcher.self model :: models
    /\ (forall ret,
          snd (_prepare_sampling load_models_gpu h model noise_shape conds model_options)
          = Ok ret -> ret = (model_patcher.model model, conds, models))
    /\ NoDup roots
    /\ (forall root, In root roots <-> In root (control_refs conds))
    /\ models = flat_map (models_of h) roots
                ++ gligen_payloads (gligen_items conds)
                ++ additional_refs conds
                ++ hook_models model_options
                ++ model_patcher.get_nested_additional_models model
    /\ (forall r, In r models <-> in_resource_union h conds model_options model r).
Proof.
  unfold _prepare_sampling.
  destruct (get_additional_models h conds (model_patcher.model_dtype model))
    as [[ms hint]|e] eqn:E; simpl; [|tauto].
  destruct (estimate_memory model noise_shape conds) as [[req mn]|e] eqn:M;
    simpl; [|tauto].
  intros [[= <- _ _]|[]].
  apply get_additional_models_Ok in E as [-> _].
  rewrite get_additional_models_from_model_options_eq.
  eexists. exists (set_iter (control_refs conds)).
  split; [reflexivity|].
  split.
  { intro ret. destruct (load_models_gpu _ _ _) as [[]|e]; simpl; congruence. }
  split; [apply set_iter_NoDup|].
  split; [apply set_iter_In|].
  split; [now rewrite <- !app_assoc|].
  intro r. unfold in_resource_union.
  rewrite !in_app_iff, in_flat_map, in_gligen_payloads, in_hook_models.
  setoid_rewrite set_iter_In. tauto.
Qed.

(** C5.  When collection and the estimate succeed, [_prepare_sampling]
    sends exactly one load request: the primary resource followed by all
    collected auxiliary resources, with the estimator's required and minimum
    values each increased by the hint, and the hint is the sum of
    [inference_memory_requirements(dtype)] over the distinct control
    objects. *)
Theorem prepare_issues_one_load (model : ModelPatcher) (noise_shape : shape)
    (conds : Conds) (model_options : option ModelOptions)
    (ms : list ref) (hint req mn : Z) :
  get_additional_models h conds (model_patcher.model_dtype model) = Ok (ms, hint) ->
  estimate_memory model noise_shape conds = Ok (req, mn) ->
  let models := ms ++ get_additional_models_from_model_options model_options
                   ++ model_patcher.get_nested_additional_models model in
  fst (_prepare_sampling load_models_gpu h model noise_shape conds model_options)
  = [LoadModelsGpu (model_patcher.self model :: models) (req + hint) (mn + hint)]
  /\ (forall ret,
        snd (_prepare_sampling load_models_gpu h model noise_shape conds model_options)
        = Ok ret -> ret = (model_patcher.model model, conds, models))
  /\ hint = sumZ (map (hint_of h (model_patcher.model_dtype model))
                      (nodup Pos.eq_dec (control_refs conds))).
Proof.
  intros E M models. unfold _prepare_sampling. rewrite E, M. cbn [fst snd].
  subst models. rewrite <- app_assoc.
  split; [reflexivity|]. split.
  - intro ret. destruct (load_models_gpu _ _ _) as [[]|e]; simpl; congruence.
  - apply get_additional_models_Ok in E as [_ ->].
    apply sumZ_Permutation, Permutation_map, NoDup_Permutation.
    + apply set_iter_NoDup.
    + apply NoDup_nodup.
    + intro x. now rewrite set_iter_In, nodup_In.
Qed.

(** C8.  If collecting the auxiliary resources raises, [_prepare_sampling]
    ends with that exception and its trace is empty: no load request was
    sent, whatever the device manager would have answered. *)
Theorem collection_failure_sends_no_load (model : ModelPatcher)
    (noise_shape : shape) (conds : Conds) (model_options : option ModelOptions)
    (e : PyErr) :
  get_additional_models h conds (model_patcher.model_dtype model) = Raise e ->
  _prepare_sampling load_models_gpu h model noise_shape conds model_options
  = ([], Raise e).
Proof. intro E. unfold _prepare_sampling. now rewrite E. Qed.

End Prepare.

(** ** Teardown *)

Lemma cleanup_additional_models_eq (h : heap) (models : list ref) :
  cleanup_additional_models h models
  = map Cleanup (filter (fun m => has_cleanup (h m)) models).
Proof.
  unfold cleanup_additional_models.
  enough (G : forall init,
             fold_left (fun trace m =>
                          if has_cleanup (h m) then trace ++ [Cleanup m] else trace)
                       models init
             = init ++ map Cleanup (filter (fun m => has_cleanup (h m)) models))
    by apply (G []).
  induction models as [|m models IH]; intro init; simpl.
  - now rewrite app_nil_r.
  - rewrite IH. destruct (has_cleanup (h m)); simpl; auto.
    now rewrite <- app_assoc.
Qed.

Lemma cleanup_calls_app (t1 t2 : list event) (m : ref) :
  cleanup_calls (t1 ++ t2) m = cleanup_calls t1 m + cleanup_calls t2 m.
Proof. unfold cleanup_calls. now rewrite filter_app, length_app. Qed.

Lemma cleanup_calls_additional (h : heap) (models : list ref) (m : ref) :
  cleanup_calls (cleanup_additional_models h models) m
  = if has_cleanup (h m) then count_occ Pos.eq_dec models m else 0.
Proof.
  rewrite cleanup_additional_models_eq. unfold cleanup_calls.
  induction models as [|x models IH]; simpl.
  - now destruct (has_cleanup (h m)).
  - destruct (Pos.eq_dec x m) as [->|N].
    + destruct (has_cleanup (h m)) eqn:C; simpl; auto.
      rewrite Pos.eqb_refl. simpl. now rewrite IH.
    + destruct (has_cleanup (h x)); simpl; auto.
      apply Pos.eqb_neq in N. rewrite N. exact IH.
Qed.

Lemma control_cleanup_loop (conds : Conds) :
  fold_left (fun control_cleanup (kv : string * list Cond) =>
               control_cleanup ++ get_models_from_cond (snd kv) key_control)
            conds []
  = control_refs conds.
Proof.
  rewrite fold_left_app_flat_map. simpl. unfold control_refs.
  rewrite <- flat_map_entries. apply flat_map_ext.
  intro kv. apply get_models_from_cond_flat_map.
Qed.

Section Teardown.

Context {SI : SetIteration}.
Variable h : heap.

(** C2, as the code has it.  [cleanup_models] always returns, and it calls
    [cleanup()] on an object that has the method once for every occurrence
    of the object in [models], and once more when some entry of the
    conditioning set has it as control object.  So every control object
    with the method is cleaned up at least once, whatever [models] holds,
    and an object without the method is never touched.  (An object listed
    in [models] and referenced as control is cleaned up more than once.) *)
Theorem cleanup_models_calls (conds : Conds) (models : list ref) (m : ref) :
  cleanup_calls (cleanup_models h conds models) m
  = (if has_cleanup (h m)
     then count_occ Pos.eq_dec models m
          + (if in_dec Pos.eq_dec m (control_refs conds) then 1 else 0)
     else 0)
  /\ (has_cleanup (h m) = true -> In m (control_refs conds) ->
      1 <= cleanup_calls (cleanup_models h conds models) m)
  /\ (has_cleanup (h m) = false ->
      cleanup_calls (cleanup_models h conds models) m = 0).
Proof.
  assert (E : cleanup_calls (cleanup_models h conds models) m
              = if has_cleanup (h m)
                then count_occ Pos.eq_dec models m
                     + (if in_dec Pos.eq_dec m (control_refs conds) then 1 else 0)
                else 0).
  { unfold cleanup_models.
    rewrite cleanup_calls_app, control_cleanup_loop, !cleanup_calls_additional.
    destruct (has_cleanup (h m)); auto. f_equal.
    destruct (in_dec Pos.eq_dec m (control_refs conds)) as [I|I].
    - apply NoDup_count_occ'; [apply set_iter_NoDup | now apply set_iter_In].
    - apply count_occ_not_In. now rewrite set_iter_In. }
  rewrite E. split; [reflexivity|]. split.
  - intros -> I. destruct (in_dec Pos.eq_dec m (control_refs conds)); [lia|tauto].
  - now intros ->.
Qed.

End Teardown.

(** ** The statements above on concrete inputs *)

Lemma prepare_models_are_union_witness :
  exists models roots,
    [1; 6]%positive = model_patcher.self examples.patcher :: models
    /\ (forall ret,
          snd (_prepare_sampling (SI := nodup_iteration) examples.always_ok
                 examples.heap1 examples.patcher [1; 4; 8; 8]%Z
                 examples.conds_control5 None)
          = Ok ret ->
          ret = (model_patcher.model examples.patcher, examples.conds_control5, models))
    /\ NoDup roots
    /\ (forall root, In root roots <-> In root (control_refs examples.conds_control5))
    /\ models = flat_map (models_of examples.heap1) roots
                ++ gligen_payloads (gligen_items examples.conds_control5)
                ++ additional_refs examples.conds_control5
                ++ hook_models None
                ++ model_patcher.get_nested_additional_models examples.patcher
    /\ (forall r, In r models
                  <-> in_resource_union examples.heap1 examples.conds_control5 None
                        examples.patcher r).
Proof.
  apply (prepare_models_are_union (SI := nodup_iteration) examples.always_ok
           examples.heap1 examples.patcher [1; 4; 8; 8]%Z examples.conds_control5
           None [1; 6]%positive 612%Z 356%Z).
  vm_compute. left. reflexivity.
Defined.

(** C1 as stated fails: with the same extra model attached in both branches
    the list handed over holds it twice. *)
Lemma prepare_models_repeat :
  _prepare_sampling (SI := nodup_iteration) examples.always_ok examples.heap1
    examples.patcher [1; 4; 8; 8]%Z examples.conds_shared_model None
  = ([LoadModelsGpu [1; 7; 7]%positive 512 256],
     Ok (examples.base, examples.conds_shared_model, [7; 7]%positive))
  /\ ~ NoDup [7; 7]%positive.
Proof.
  split; [reflexivity|].
  intro N. inversion N as [|x l Hin _]; subst. apply Hin. now left.
Qed.

Lemma prepare_issues_one_load_witness :
  fst (_prepare_sampling (SI := nodup_iteration) examples.always_ok examples.heap1
         examples.patcher [1; 4; 8; 8]%Z examples.conds_control5 None)
  = [LoadModelsGpu [1; 6]%positive (512 + 100) (256 + 100)].
Proof.
  apply (prepare_issues_one_load (SI := nodup_iteration) examples.always_ok
           examples.heap1 examples.patcher [1; 4; 8; 8]%Z examples.conds_control5
           None [6%positive] 100%Z 512%Z 256%Z);
    reflexivity.
Defined.

Lemma collection_failure_sends_no_load_witness :
  get_additional_models (SI := nodup_iteration) examples.heap1
    examples.conds_control9 float16 = Raise AttributeError
  /\ _prepare_sampling (SI := nodup_iteration) examples.always_ok examples.heap1
       examples.patcher [1; 4; 8; 8]%Z examples.conds_control9 None
     = ([], Raise AttributeError).
Proof.
  split; [reflexivity|].
  apply (collection_failure_sends_no_load (SI := nodup_iteration)
           examples.always_ok examples.heap1 examples.patcher [1; 4; 8; 8]%Z
           examples.conds_control9 None AttributeError).
  reflexivity.
Defined.

(** C2 as stated fails: a control object that is also in [models] has its
    [cleanup()] called twice. *)
Lemma cleanup_models_twice :
  cleanup_models (SI := nodup_iteration) examples.heap1 examples.conds_control5
    [5%positive]
  = [Cleanup 5%positive; Cleanup 5%positive]
  /\ cleanup_calls (cleanup_models (SI := nodup_iteration) examples.heap1
                      examples.conds_control5 [5%positive]) 5%positive = 2.
Proof. split; reflexivity. Qed.

(** ** The memory estimate *)

Lemma foldM_app {A B} (f : A -> B -> result A) (l1 l2 : list B) (a : A) :
  foldM f a (l1 ++ l2) = bind (foldM f a l1) (fun a' => foldM f a' l2).
Proof.
  revert a; induction l1 as [|x l1 IH]; intro a; simpl; auto.
  destruct (f a x); simpl; auto.
Qed.

Lemma foldM_flat_map {A B C} (f : A -> B -> result A) (g : C -> list B)
    (l : list C) (a : A) :
  foldM (fun acc x => foldM f acc (g x)) a l = foldM f a (flat_map g l).
Proof.
  revert a; induction l as [|x l IH]; intro a; simpl; auto.
  rewrite foldM_app. destruct (foldM f a (g x)); simpl; auto.
Qed.

Lemma in_bucket_names (items : list (string * shape)) (k : string) :
  In k (bucket_names items) <-> In k (map fst items).
Proof.
  induction items as [|[k0 v0] items IH]; simpl; [tauto|].
  rewrite filter_In, IH, negb_true_iff, String.eqb_neq.
  destruct (string_dec k0 k); intuition congruence.
Qed.

Lemma NoDup_bucket_names (items : list (string * shape)) :
  NoDup (bucket_names items).
Proof.
  induction items as [|[k0 v0] items IH]; simpl; constructor.
  - rewrite filter_In, String.eqb_refl. simpl. intuition discriminate.
  - now apply NoDup_filter.
Qed.

Lemma bucket_app (k : string) (l1 l2 : list (string * shape)) :
  bucket k (l1 ++ l2) = bucket k l1 ++ bucket k l2.
Proof. unfold bucket. now rewrite filter_app, map_app. Qed.

Lemma bucket_not_in (k : string) (items : list (string * shape)) :
  ~ In k (bucket_names items) -> bucket k items = [].
Proof.
  rewrite in_bucket_names. unfold bucket.
  induction items as [|[k0 v0] items IH]; simpl; auto.
  intro N. destruct (String.eqb_spec k0 k) as [->|_]; [tauto|]. apply IH. tauto.
Qed.

Lemma bucket_in (k : string) (items : list (string * shape)) :
  In k (bucket_names items) -> bucket k items <> [].
Proof.
  rewrite in_bucket_names. unfold bucket.
  induction items as [|[k0 v0] items IH]; simpl; [tauto|].
  intros [->|I].
  - rewrite String.eqb_refl. discriminate.
  - destruct (String.eqb k0 k); [discriminate|]. now apply IH.
Qed.

Lemma bucket_names_snoc (items : list (string * shape)) (k : string) (v : shape) :
  bucket_names (items ++ [(k, v)])
  = if in_dec string_dec k (bucket_names items)
    then bucket_names items
    else bucket_names items ++ [k].
Proof.
  induction items as [|[k0 v0] items IH]; simpl; auto.
  rewrite IH. clear IH.
  destruct (string_dec k0 k) as [->|N].
  - f_equal. destruct (in_dec string_dec k (bucket_names items)); auto.
    rewrite filter_app. simpl. rewrite String.eqb_refl. simpl.
    apply app_nil_r.
  - destruct (in_dec string_dec k (bucket_names items)) as [I|I];
      destruct (in_dec string_dec k _) as [J|J]; auto.
    + exfalso. apply J. rewrite filter_In, negb_true_iff, String.eqb_neq.
      split; auto.
    + exfalso. apply I. rewrite filter_In in J. tauto.
    + rewrite filter_app. simpl.
      assert (E : String.eqb k k0 = false) by (apply String.eqb_neq; auto).
      now rewrite E.
Qed.

Lemma first_largest_snoc (l : list shape) (v : shape) :
  first_largest (l ++ [v])
  = match first_largest l with
    | None => Some v
    | Some w => if (math_prod w <? math_prod v)%Z then Some v else Some w
    end.
Proof.
  induction l as [|x l IH]; simpl; auto.
  rewrite IH. clear IH.
  destruct (first_largest l) as [w|]; [|reflexivity].
  destruct (Z.ltb_spec (math_prod w) (math_prod v));
    destruct (Z.ltb_spec (math_prod x) (math_prod w));
    repeat match goal with
           | |- context [(?a <? ?b)%Z] => destruct (Z.ltb_spec a b)
           end;
    try reflexivity; lia.
Qed.

Lemma first_largest_nil (l : list shape) : first_largest l = None -> l = [].
Proof.
  destruct l as [|v l]; auto. simpl.
  destruct (first_largest l); [destruct (_ <? _)%Z|]; discriminate.
Qed.

(** What [first_largest] picks: nothing before it is as large, nothing after
    it is larger. *)
Lemma first_largest_spec (l : list shape) (v : shape) :
  first_largest l = Some v ->
  exists l1 l2,
    l = l1 ++ v :: l2
    /\ (forall w, In w l1 -> (math_prod w < math_prod v)%Z)
    /\ (forall w, In w l2 -> (math_prod w <= math_prod v)%Z).
Proof.
  revert v; induction l as [|x l IH]; intro v; simpl; [discriminate|].
  destruct (first_largest l) as [w|] eqn:E.
  - destruct (IH w eq_refl) as (l1 & l2 & -> & B & A).
    destruct (math_prod x <? math_prod w)%Z eqn:C; intros [= <-].
    + exists (x :: l1), l2. split; [reflexivity|]. split; auto.
      intros w' [<-|I]; [lia|auto].
    + exists [], (l1 ++ w :: l2). split; [reflexivity|].
      split; [intros w' []|].
      intros w' I. apply in_app_or in I as [I|[<-|I]].
      * specialize (B _ I). lia.
      * lia.
      * specialize (A _ I). lia.
  - intros [= <-]. apply first_largest_nil in E as ->.
    exists [], []. repeat split; intros w [].
Qed.

Lemma dict_get_tabulate {V} (names : list string) (f : string -> V) (k : string) :
  dict_get (tabulate names f) k
  = if in_dec string_dec k names then Some (f k) else None.
Proof.
  unfold tabulate. induction names as [|k0 names IH]; simpl; auto.
  destruct (String.eqb_spec k0 k) as [->|N].
  - destruct (string_dec k k); [reflexivity|congruence].
  - rewrite IH. destruct (string_dec k0 k); [congruence|].
    destruct (in_dec string_dec k names); reflexivity.
Qed.

Lemma dict_set_tabulate_new {V} (names : list string) (f : string -> V)
    (k : string) (x : V) :
  ~ In k names ->
  dict_set (tabulate names f) k x
  = tabulate (names ++ [k]) (fun k' => if String.eqb k' k then x else f k').
Proof.
  unfold tabulate. induction names as [|k0 names IH]; simpl; intro N.
  - now rewrite String.eqb_refl.
  - destruct (String.eqb_spec k0 k) as [->|_]; [tauto|].
    f_equal. apply IH. tauto.
Qed.

Lemma dict_set_tabulate_old {V} (names : list string) (f : string -> V)
    (k : string) (x : V) :
  NoDup names -> In k names ->
  dict_set (tabulate names f) k x
  = tabulate names (fun k' => if String.eqb k' k then x else f k').
Proof.
  unfold tabulate. induction names as [|k0 names IH]; simpl; intros D I; [tauto|].
  inversion D as [|? ? N D']; subst.
  destruct (String.eqb_spec k0 k) as [->|Ne].
  - f_equal. apply map_ext_in. intros k' I'.
    destruct (String.eqb_spec k' k) as [->|_]; [tauto|reflexivity].
  - f_equal. apply IH; auto. destruct I; [congruence|auto].
Qed.

Lemma tabulate_ext {V} (names : list string) (f g : string -> V) :
  (forall k, In k names -> f k = g k) -> tabulate names f = tabulate names g.
Proof.
  intro E. unfold tabulate. apply map_ext_in. intros k I. now rewrite E.
Qed.

Lemma bucket_snoc (k k' : string) (v : shape) (items : list (string * shape)) :
  bucket k' (items ++ [(k, v)])
  = if String.eqb k' k then bucket k' items ++ [v] else bucket k' items.
Proof.
  rewrite bucket_app. unfold bucket at 2. simpl. rewrite String.eqb_sym.
  destruct (String.eqb k' k); simpl; auto using app_nil_r.
Qed.

(** One turn of the innermost loop keeps both dicts in step with the
    description. *)
Lemma estimate_memory_item_step (items : list (string * shape)) (k : string)
    (v : shape) :
  estimate_memory_item (full_buckets items, largest_buckets items) (k, v)
  = Ok (full_buckets (items ++ [(k, v)]), largest_buckets (items ++ [(k, v)])).
Proof.
  unfold estimate_memory_item, defaultdict_append, full_buckets, largest_buckets.
  rewrite !dict_get_tabulate, bucket_names_snoc.
  destruct (in_dec string_dec k (bucket_names items)) as [I|I].
  - rewrite dict_set_tabulate_old by auto using NoDup_bucket_names.
    assert (F : tabulate (bucket_names items)
                  (fun k' => if String.eqb k' k then bucket k items ++ [v]
                             else bucket k' items)
                = tabulate (bucket_names items)
                    (fun k0 => bucket k0 (items ++ [(k, v)]))).
    { apply tabulate_ext. intros k' _. rewrite bucket_snoc.
      destruct (String.eqb_spec k' k) as [->|_]; reflexivity. }
    rewrite F. clear F.
    destruct (first_largest (bucket k items)) as [w|] eqn:L.
    + cbn [item0 bind].
      destruct (math_prod w <? math_prod v)%Z eqn:C.
      * rewrite dict_set_tabulate_old by auto using NoDup_bucket_names.
        do 2 f_equal. apply tabulate_ext. intros k' _. rewrite bucket_snoc.
        destruct (String.eqb_spec k' k) as [->|_]; auto.
        now rewrite first_largest_snoc, L, C.
      * do 2 f_equal. apply tabulate_ext. intros k' _. rewrite bucket_snoc.
        destruct (String.eqb_spec k' k) as [->|_]; auto.
        now rewrite first_largest_snoc, L, C.
    + apply first_largest_nil in L. now apply bucket_in in I.
  - rewrite !dict_set_tabulate_new by auto.
    do 2 f_equal.
    + apply tabulate_ext. intros k' _. rewrite bucket_snoc.
      destruct (String.eqb_spec k' k) as [->|_]; auto.
      now rewrite (bucket_not_in k items I).
    + apply tabulate_ext. intros k' _. rewrite bucket_snoc.
      destruct (String.eqb_spec k' k) as [->|_]; auto.
      now rewrite (bucket_not_in k items I).
Qed.

Lemma estimate_memory_loop (pre items : list (string * shape)) :
  foldM estimate_memory_item (full_buckets pre, largest_buckets pre) items
  = Ok (full_buckets (pre ++ items), largest_buckets (pre ++ items)).
Proof.
  revert pre; induction items as [|[k v] items IH]; intro pre; cbn [foldM].
  - now rewrite app_nil_r.
  - rewrite estimate_memory_item_step. cbn [bind].
    rewrite IH, <- app_assoc. reflexivity.
Qed.

Lemma estimate_memory_eq (model : ModelPatcher) (b : Z) (rest : shape)
    (conds : Conds) :
  estimate_memory model (b :: rest) conds
  = Ok (model_base.memory_required (model_patcher.model model)
          ((b * 2)%Z :: rest) (full_buckets (shapes_seen model conds)),
        model_base.memory_required (model_patcher.model model)
          (b :: rest) (largest_buckets (shapes_seen model conds))).
Proof.
  unfold estimate_memory.
  rewrite (foldM_flat_map
             (fun acc cond =>
                foldM estimate_memory_item acc
                      (model_base.extra_conds_shapes (model_patcher.model model) cond))
             snd conds).
  fold (entries conds).
  rewrite (foldM_flat_map estimate_memory_item
             (model_base.extra_conds_shapes (model_patcher.model model))).
  fold (shapes_seen model conds).
  change (@nil (string * list shape), @nil (string * list shape))
    with (full_buckets [], largest_buckets []).
  rewrite estimate_memory_loop. reflexivity.
Qed.

Lemma subseq_nil_l {A} (l : list A) : subseq [] l.
Proof. induction l; constructor; auto. Qed.

Lemma subseq_single {A} (v : A) (l : list A) : In v l -> subseq [v] l.
Proof.
  induction l as [|x l IH]; simpl; [tauto|].
  intros [->|I].
  - apply subseq_keep, subseq_nil_l.
  - apply subseq_skip, IH, I.
Qed.

Lemma subseq_length {A} (l1 l2 : list A) :
  subseq l1 l2 -> List.length l1 <= List.length l2.
Proof. induction 1; simpl; lia. Qed.

Lemma largest_buckets_le (items : list (string * shape)) :
  buckets_le (largest_buckets items) (full_buckets items).
Proof.
  unfold buckets_le, largest_buckets, full_buckets, tabulate.
  induction (bucket_names items) as [|k names IH]; simpl; constructor; auto.
  simpl. split; [reflexivity|].
  destruct (first_largest (bucket k items)) as [v|] eqn:L.
  - apply subseq_single.
    apply first_largest_spec in L as (l1 & l2 & -> & _).
    apply in_or_app. right. now left.
  - apply subseq_nil_l.
Qed.

(** C3.  On an output shape with leading dimension [b], [estimate_memory]
    returns the pair of: the memory requirement of the primary resource for
    the shape with [b] doubled and, per bucket name, all shapes seen over
    all entries of all branches, in order; and its memory requirement for
    the shape with [b] as it is and, per bucket name, the one shape of
    largest volume, the first such shape when several are largest. *)
Theorem estimate_memory_passes (model : ModelPatcher) (b : Z) (rest : shape)
    (conds : Conds) :
  let items := shapes_seen model conds in
  let cost := model_base.memory_required (model_patcher.model model) in
  estimate_memory model (b :: rest) conds
  = Ok (cost ((b * 2)%Z :: rest) (full_buckets items),
        cost (b :: rest) (largest_buckets items))
  /\ dict_keys (full_buckets items) = bucket_names items
  /\ dict_keys (largest_buckets items) = bucket_names items
  /\ (forall k, In k (map fst items) <-> In k (bucket_names items))
  /\ (forall k, In k (bucket_names items) ->
        dict_get (full_buckets items) k
        = Some (map snd (filter (fun kv => String.eqb (fst kv) k) items)))
  /\ (forall k, In k (bucket_names items) ->
        exists v before after,
          dict_get (largest_buckets items) k = Some [v]
          /\ map snd (filter (fun kv => String.eqb (fst kv) k) items)
             = before ++ v :: after
          /\ (forall w, In w before -> (math_prod w < math_prod v)%Z)
          /\ (forall w, In w after -> (math_prod w <= math_prod v)%Z)).
Proof.
  intros items cost. split; [apply estimate_memory_eq|].
  assert (K : forall V (f : string -> V) names, dict_keys (tabulate names f) = names).
  { intros V f names. unfold dict_keys, tabulate. rewrite map_map. apply map_id. }
  split; [apply K|]. split; [apply K|].
  split; [intro k; symmetry; apply in_bucket_names|].
  split.
  - intros k I. unfold full_buckets. rewrite dict_get_tabulate.
    destruct (in_dec string_dec k (bucket_names items)); [reflexivity|tauto].
  - intros k I. unfold largest_buckets. rewrite dict_get_tabulate.
    destruct (in_dec string_dec k (bucket_names items)); [|tauto].
    destruct (first_largest (bucket k items)) as [v|] eqn:L.
    + destruct (first_largest_spec _ _ L) as (l1 & l2 & E & B & A).
      exists v, l1, l2. repeat split; auto.
    + apply first_largest_nil in L. now apply bucket_in in I.
Qed.

(** The scenario of the spec: the minimum sees only [2,4,16], the required
    estimate sees both shapes. *)
Example estimate_memory_context :
  full_buckets (shapes_seen examples.patcher examples.conds_context)
  = [("context"%string, [[2; 4; 8]; [2; 4; 16]]%Z)]
  /\ largest_buckets (shapes_seen examples.patcher examples.conds_context)
     = [("context"%string, [[2; 4; 16]]%Z)]
  /\ estimate_memory examples.patcher [1; 4; 8; 8]%Z examples.conds_context
     = Ok (512 + (64 + 128), 256 + 128)%Z.
Proof. repeat split. Qed.

Lemma in_bucket (k : string) (items : list (string * shape)) (v : shape) :
  In v (bucket k items) -> In (k, v) items.
Proof.
  unfold bucket. rewrite in_map_iff. intros ([k' v'] & E & I).
  apply filter_In in I as [I K]. simpl in *. apply String.eqb_eq in K.
  now subst.
Qed.

(** C4.  For a primary resource whose cost never drops when the batch grows
    or shapes are added, an output shape and conditioning shapes without
    negative dimensions, [estimate_memory] returns a pair whose minimum is
    at most its required value. *)
Theorem estimate_minimum_le_required (model : ModelPatcher) (b : Z)
    (rest : shape) (conds : Conds) :
  cost_monotone (model_base.memory_required (model_patcher.model model)) ->
  (0 <= b)%Z -> nonneg_shape rest ->
  (forall kv, In kv (shapes_seen model conds) -> nonneg_shape (snd kv)) ->
  exists required minimum,
    estimate_memory model (b :: rest) conds = Ok (required, minimum)
    /\ (minimum <= required)%Z.
Proof.
  intros Mo B R V. rewrite estimate_memory_eq. do 2 eexists.
  split; [reflexivity|].
  apply Mo; [lia|exact R| |apply largest_buckets_le].
  intros [k l] K. unfold full_buckets, tabulate in K.
  apply in_map_iff in K as (k' & [= <- <-] & _). simpl.
  apply Forall_forall. intros v I. apply (V (k', v)). now apply in_bucket.
Qed.

Lemma math_prod_cons (n : Z) (v : shape) :
  math_prod (n :: v) = (n * math_prod v)%Z.
Proof.
  unfold math_prod. cbn [fold_left].
  enough (G : forall a, fold_left Z.mul v a = (a * fold_left Z.mul v 1)%Z).
  { rewrite G. ring. }
  induction v as [|x v IH]; intro a; cbn [fold_left]; [ring|].
  rewrite (IH (a * x)%Z), (IH (1 * x)%Z). ring.
Qed.

Lemma math_prod_nonneg (v : shape) : nonneg_shape v -> (0 <= math_prod v)%Z.
Proof.
  induction 1 as [|n v N _ IH]; [unfold math_prod; simpl; lia|].
  rewrite math_prod_cons. lia.
Qed.

Lemma sum_volumes_subseq (l1 l2 : list shape) :
  subseq l1 l2 -> Forall nonneg_shape l2 ->
  (sumZ (map math_prod l1) <= sumZ (map math_prod l2))%Z.
Proof.
  induction 1 as [|x l1 l2 S IH|x l1 l2 S IH]; intro F; simpl; [lia| |];
    inversion F as [|? ? N F']; subst; specialize (IH F');
    apply math_prod_nonneg in N; lia.
Qed.

Lemma base_monotone : cost_monotone (model_base.memory_required examples.base).
Proof.
  intros b b' rest d d' B R V L. simpl.
  rewrite !math_prod_cons. apply math_prod_nonneg in R.
  enough (sumZ (map (fun kv => sumZ (map math_prod (snd kv))) d)
          <= sumZ (map (fun kv => sumZ (map math_prod (snd kv))) d'))%Z by nia.
  induction L as [|[k1 l1] [k2 l2] d d' [_ S] L IH]; simpl; [lia|].
  simpl in S.
  assert (F : Forall nonneg_shape l2) by (apply (V (k2, l2)); now left).
  pose proof (sum_volumes_subseq _ _ S F).
  assert (sumZ (map (fun kv => sumZ (map math_prod (snd kv))) d)
          <= sumZ (map (fun kv => sumZ (map math_prod (snd kv))) d'))%Z.
  { apply IH. intros kv I. apply V. now right. }
  lia.
Qed.

Lemma estimate_minimum_le_required_witness :
  exists required minimum,
    estimate_memory examples.patcher [1; 4; 8; 8]%Z examples.conds_context
    = Ok (required, minimum)
    /\ (minimum <= required)%Z.
Proof.
  apply (estimate_minimum_le_required examples.patcher 1 [4; 8; 8]%Z
           examples.conds_context).
  - exact base_monotone.
  - lia.
  - repeat constructor; lia.
  - intros kv [<-|[<-|[]]]; repeat constructor; simpl; lia.
Defined.

(** ** Walking a control chain *)

Lemma chain_unique (h : heap) (n : ref) (l1 l2 : list ref) :
  chain h n l1 -> chain h n l2 -> l1 = l2.
Proof.
  intro C1. revert l2.
  induction C1 as [m E|m p l E C IH]; intros l2 C2; inversion C2; subst;
    try congruence.
  f_equal. apply IH. congruence.
Qed.

Lemma chain_acyclic (h : heap) (n : ref) (nodes : list ref) :
  chain h n nodes -> NoDup nodes.
Proof.
  pose proof (chain_unique h) as U.
  assert (T : forall n l m, chain h n l -> In m l -> exists l', chain h m l' /\
                            List.length l' <= List.length l).
  { intros m l x C. induction C as [m E|m p l E C IH]; simpl.
    - intros [<-|[]]. exists [m]. split; [now constructor|simpl; lia].
    - intros [<-|I].
      + exists (m :: l). split; [econstructor; eauto|simpl; lia].
      + destruct (IH I) as (l' & C' & L). exists l'. split; auto. }
  induction 1 as [m E|m p l E C IH].
  - constructor; [intros []|constructor].
  - constructor; auto. intro I.
    destruct (T _ _ _ C I) as (l' & C' & L).
    assert (C2 : chain h m (m :: l)) by (econstructor; eauto).
    rewrite (U _ _ _ C' C2) in L. simpl in L. lia.
Qed.

Lemma get_extra_hooks_from_cnet_chain (h : heap) (n : ref) (nodes : list ref) :
  chain h n nodes ->
  forall depth _list,
    List.length nodes <= depth ->
    get_extra_hooks_from_cnet depth h n _list
    = (nodes, Some (_list ++ extra_groups h nodes)).
Proof.
  unfold extra_groups.
  induction 1 as [m E|m p l E C IH]; intros depth _list L;
    (destruct depth as [|depth]; [simpl in L; lia|]); simpl; rewrite E.
  - rewrite app_nil_r.
    destruct (extra_hooks (h m)); [reflexivity|now rewrite app_nil_r].
  - rewrite IH by (simpl in L; lia).
    destruct (extra_hooks (h m)); simpl; [now rewrite <- app_assoc|reflexivity].
Qed.

Lemma nth_previous_add (h : heap) (a b : nat) (n : ref) :
  nth_previous h (a + b) n
  = match nth_previous h a n with
    | Some m => nth_previous h b m
    | None => None
    end.
Proof.
  revert n; induction a as [|a IH]; intro n; simpl; auto.
  destruct (previous_controlnet (h n)); auto.
Qed.

Lemma cycle_never_ends (h : heap) (n : ref) :
  has_cycle h n -> forall j, nth_previous h j n <> None.
Proof.
  intros (i & m & k & R & K & B).
  assert (M : forall j, nth_previous h j m <> None).
  { intro j. induction j as [j IH] using lt_wf_ind.
    destruct (Nat.lt_ge_cases j k) as [L|L].
    - intro N. replace k with (j + (k - j)) in B by lia.
      rewrite nth_previous_add, N in B. discriminate.
    - replace j with (k + (j - k)) by lia.
      rewrite nth_previous_add, B. apply IH. lia. }
  intro j. destruct (Nat.lt_ge_cases j i) as [L|L].
  - intro N. replace i with (j + (i - j)) in R by lia.
    rewrite nth_previous_add, N in R. discriminate.
  - replace j with (i + (j - i)) by lia.
    rewrite nth_previous_add, R. apply M.
Qed.

Lemma get_extra_hooks_from_cnet_endless (h : heap) :
  forall depth n _list,
    (forall j, nth_previous h j n <> None) ->
    snd (get_extra_hooks_from_cnet depth h n _list) = None
    /\ List.length (fst (get_extra_hooks_from_cnet depth h n _list)) = depth.
Proof.
  induction depth as [|depth IH]; intros n _list E; simpl; auto.
  destruct (previous_controlnet (h n)) as [p|] eqn:P.
  - assert (E' : forall j, nth_previous h j p <> None).
    { intro j. specialize (E (S j)). simpl in E. now rewrite P in E. }
    specialize (IH p (match extra_hooks (h n) with
                      | Some g => _list ++ [g]
                      | None => _list
                      end) E').
    destruct (get_extra_hooks_from_cnet depth h p _) as [visited r].
    simpl in *. destruct IH as [-> ->]. auto.
  - exfalso. apply (E 1). simpl. now rewrite P.
Qed.

(** C6, as the code has it.  On a chain of N nodes that ends,
    [get_extra_hooks_from_cnet] looks at the N nodes once each, in chain
    order, and returns the extra hook groups it found, as soon as it may
    nest N calls.  The code has no protection against a cycle: on a chain
    that runs into one it never returns, and looks at nodes for as long as
    it is allowed to nest calls. *)
Theorem chain_walk (h : heap) (n : ref) :
  (forall nodes depth _list,
     chain h n nodes -> List.length nodes <= depth ->
     NoDup nodes
     /\ get_extra_hooks_from_cnet depth h n _list
        = (nodes, Some (_list ++ extra_groups h nodes)))
  /\ (has_cycle h n ->
      forall depth _list,
        snd (get_extra_hooks_from_cnet depth h n _list) = None
        /\ List.length (fst (get_extra_hooks_from_cnet depth h n _list)) = depth).
Proof.
  split.
  - intros nodes depth _list C L. split.
    + eapply chain_acyclic; eauto.
    + now apply get_extra_hooks_from_cnet_chain.
  - intros Cy depth _list. apply get_extra_hooks_from_cnet_endless.
    now apply cycle_never_ends.
Qed.

Lemma loop_heap_cycle : has_cycle examples.loop_heap 3%positive.
Proof. exists 0, 3%positive, 1. repeat split. lia. Qed.

Lemma chain_heap_chain : chain examples.chain_heap 10%positive [10; 11]%positive.
Proof. eapply chain_link; [reflexivity|]. apply chain_last. reflexivity. Qed.

Lemma chain_walk_witness :
  get_extra_hooks_from_cnet 2 examples.chain_heap 10%positive []
  = ([10; 11]%positive, Some [hooks.mkHookGroup [examples.hookC]])
  /\ List.length (fst (get_extra_hooks_from_cnet 7 examples.loop_heap 3%positive [])) = 7.
Proof.
  split.
  - apply (proj1 (chain_walk examples.chain_heap 10%positive)
             [10; 11]%positive 2 [] chain_heap_chain).
    simpl. lia.
  - apply (proj2 (chain_walk examples.loop_heap 3%positive) loop_heap_cycle 7 []).
Defined.

(** C6 as stated fails: on a chain that is a cycle of one node the walk
    returns for no nesting allowance, as a value or as an error of its own,
    and with allowance 7 it has looked at the one node 7 times. *)
Lemma cyclic_walk_never_returns :
  (~ exists depth r,
       snd (get_extra_hooks_from_cnet depth examples.loop_heap 3%positive []) = Some r)
  /\ fst (get_extra_hooks_from_cnet 7 examples.loop_heap 3%positive [])
     = [3; 3; 3; 3; 3; 3; 3]%positive.
Proof.
  split; [|reflexivity].
  intros (depth & r & E).
  destruct (get_extra_hooks_from_cnet_endless examples.loop_heap depth 3%positive []
              (cycle_never_ends _ _ loop_heap_cycle)) as [N _].
  congruence.
Qed.

(** ** Collecting hooks *)

Lemma in_add (g : hooks.HookGroup) (hook x : hooks.Hook) :
  In x (hooks.hooks (hooks.add g hook)) <-> In x (hooks.hooks g) \/ x = hook.
Proof.
  unfold hooks.add.
  destruct (in_dec hooks.Hook_eq_dec hook (hooks.hooks g)) as [I|I]; simpl.
  - split; [tauto|]. intros [J| ->]; auto.
  - rewrite in_app_iff. simpl. intuition.
Qed.

Lemma NoDup_add (g : hooks.HookGroup) (hook : hooks.Hook) :
  NoDup (hooks.hooks g) -> NoDup (hooks.hooks (hooks.add g hook)).
Proof.
  intro D. unfold hooks.add.
  destruct (in_dec hooks.Hook_eq_dec hook (hooks.hooks g)) as [I|I]; simpl; auto.
  apply NoDup_app; auto.
  - constructor; [intros []|constructor].
  - intros x J [<-|[]]. tauto.
Qed.

Lemma in_fold_add (l : list hooks.Hook) (g : hooks.HookGroup) (x : hooks.Hook) :
  In x (hooks.hooks (fold_left hooks.add l g)) <-> In x (hooks.hooks g) \/ In x l.
Proof.
  revert g; induction l as [|hook l IH]; intro g; simpl; [tauto|].
  rewrite IH, in_add. intuition.
Qed.

Lemma NoDup_fold_add (l : list hooks.Hook) (g : hooks.HookGroup) :
  NoDup (hooks.hooks g) -> NoDup (hooks.hooks (fold_left hooks.add l g)).
Proof.
  revert g; induction l as [|hook l IH]; intro g; simpl; auto using NoDup_add.
Qed.

Lemma combine_all_hooks_spec (hooks_list : list hooks.HookGroup) :
  match hooks.combine_all_hooks hooks_list with
  | Some e =>
      NoDup (hooks.hooks e)
      /\ forall x, In x (hooks.hooks e)
                   <-> exists g, In g hooks_list /\ In x (hooks.hooks g)
  | None => hooks_list = []
  end.
Proof.
  destruct hooks_list as [|g rest]; simpl; auto.
  assert (G : forall l acc,
             (NoDup (hooks.hooks acc) ->
              NoDup (hooks.hooks
                       (fold_left (fun acc g' => fold_left hooks.add (hooks.hooks g') acc)
                                  l acc)))
             /\ forall x,
                 In x (hooks.hooks
                         (fold_left (fun acc g' => fold_left hooks.add (hooks.hooks g') acc)
                                    l acc))
                 <-> In x (hooks.hooks acc)
                     \/ exists g', In g' l /\ In x (hooks.hooks g')).
  { induction l as [|g' l IH]; intro acc; simpl.
    - split; auto. intro x. split; auto. intros [I|(g' & [] & _)]; auto.
    - destruct (IH (fold_left hooks.add (hooks.hooks g') acc)) as [D M].
      split; [auto using NoDup_fold_add|].
      intro x. rewrite M, in_fold_add. split.
      + intros [[I|I]|(g2 & I & J)]; eauto.
      + intros [I|(g2 & [<-|I] & J)]; eauto. }
  destruct (G rest (fold_left hooks.add (hooks.hooks g) hooks.empty)) as [D M].
  split.
  - apply D, NoDup_fold_add. constructor.
  - intro x. rewrite M, in_fold_add. simpl. split.
    + intros [[[]|I]|(g2 & I & J)]; eauto.
    + intros (g2 & [<-|I] & J); eauto.
Qed.

Lemma in_extra_groups (h : heap) (nodes : list ref) (e : hooks.HookGroup) :
  In e (extra_groups h nodes)
  <-> exists n, In n nodes /\ extra_hooks (h n) = Some e.
Proof.
  unfold extra_groups. rewrite in_flat_map. split; intros (n & I & J); exists n;
    split; auto.
  - destruct (extra_hooks (h n)); simpl in J; intuition congruence.
  - rewrite J. now left.
Qed.

Lemma extra_groups_app (h : heap) (l1 l2 : list ref) :
  extra_groups h (l1 ++ l2) = extra_groups h l1 ++ extra_groups h l2.
Proof. apply flat_map_app. Qed.

Lemma in_branch_hooks (cond : list Cond) (x : hooks.Hook) :
  In x (branch_hooks cond)
  <-> exists c e, In c cond /\ c_hooks c = Some e /\ In x (hooks.hooks e).
Proof.
  unfold branch_hooks. rewrite in_flat_map. split.
  - intros (c & I & J). destruct (c_hooks c) as [e|] eqn:E; [|destruct J].
    now exists c, e.
  - intros (c & e & I & E & J). exists c. rewrite E. auto.
Qed.

Section Hooks.

Context {SI : SetIteration}.
Variables (depth : nat) (h : heap).

Lemma extra_hooks_of_cnets_chains (roots : list ref) (chains : list (list ref)) :
  Forall2 (chain h) roots chains ->
  Forall (fun nodes => List.length nodes <= depth) chains ->
  forall hooks_list,
    extra_hooks_of_cnets depth h roots hooks_list
    = (List.concat chains, Some (hooks_list ++ extra_groups h (List.concat chains))).
Proof.
  induction 1 as [|root nodes roots chains C _ IH]; intros L hooks_list; simpl.
  - now rewrite app_nil_r.
  - inversion L as [|? ? Ln L']; subst.
    rewrite (get_extra_hooks_from_cnet_chain h root nodes C depth hooks_list Ln).
    rewrite (IH L'), extra_groups_app, app_assoc. reflexivity.
Qed.

(** The first loop of [get_hooks_from_cond]. *)
Lemma hooks_loop (cond : list Cond) (g : hooks.HookGroup) (cnets : list ref) :
  fold_left (fun '(full_hooks, cnets) c =>
               let full_hooks :=
                 match c_hooks c with
                 | Some g => fold_left hooks.add (hooks.hooks g) full_hooks
                 | None => full_hooks
                 end in
               let cnets :=
                 match c_control c with
                 | Some cnet => cnets ++ [cnet]
                 | None => cnets
                 end in
               (full_hooks, cnets))
            cond (g, cnets)
  = (fold_left hooks.add (branch_hooks cond) g, cnets ++ branch_controls cond).
Proof.
  unfold branch_hooks, branch_controls.
  revert g cnets; induction cond as [|c cond IH]; intros g cnets; simpl.
  - now rewrite app_nil_r.
  - rewrite IH, fold_left_app. f_equal.
    + destruct (c_hooks c); reflexivity.
    + unfold key_control. destruct (c_control c); simpl;
        [now rewrite <- app_assoc|reflexivity].
Qed.

Lemma get_hooks_from_cond_chains (cond : list Cond) (g : hooks.HookGroup)
    (chains : list (list ref)) :
  Forall2 (chain h) (set_iter (branch_controls cond)) chains ->
  Forall (fun nodes => List.length nodes <= depth) chains ->
  exists g',
    get_hooks_from_cond depth h cond g = (List.concat chains, Some g')
    /\ (NoDup (hooks.hooks g) -> NoDup (hooks.hooks g'))
    /\ forall x,
         In x (hooks.hooks g')
         <-> In x (hooks.hooks g)
             \/ In x (branch_hooks cond)
             \/ exists e, In e (extra_groups h (List.concat chains))
                          /\ In x (hooks.hooks e).
Proof.
  intros C L. unfold get_hooks_from_cond.
  rewrite hooks_loop. cbn [app].
  rewrite (extra_hooks_of_cnets_chains _ _ C L). cbn [app].
  pose proof (combine_all_hooks_spec (extra_groups h (List.concat chains))) as S.
  destruct (hooks.combine_all_hooks (extra_groups h (List.concat chains))) as [e|].
  - destruct S as [_ S]. eexists. split; [reflexivity|]. split.
    + intro D. now apply NoDup_fold_add, NoDup_fold_add.
    + intro x. rewrite !in_fold_add, S. tauto.
  - rewrite S. eexists. split; [reflexivity|]. split.
    + intro D. now apply NoDup_fold_add.
    + intro x. rewrite in_fold_add. split; [tauto|].
      intros [I|[I|(e & [] & _)]]; auto.
Qed.

End Hooks.

Lemma in_control_refs (conds : Conds) (root : ref) :
  In root (control_refs conds)
  <-> exists kv, In kv conds /\ In root (branch_controls (snd kv)).
Proof.
  unfold control_refs, branch_controls. rewrite <- flat_map_entries.
  apply in_flat_map.
Qed.

Lemma in_entries (conds : Conds) (c : Cond) :
  In c (entries conds) <-> exists kv, In kv conds /\ In c (snd kv).
Proof. unfold entries. apply in_flat_map. Qed.

Lemma Forall2_in_left {A B} (R : A -> B -> Prop) (l1 : list A) (l2 : list B) (x : A) :
  Forall2 R l1 l2 -> In x l1 -> exists y, In y l2 /\ R x y.
Proof.
  induction 1 as [|a b l1 l2 r _ IH]; simpl; [tauto|].
  intros [<-|I]; [eauto|]. destruct (IH I) as (y & J & K). eauto.
Qed.

Lemma Forall2_in_right {A B} (R : A -> B -> Prop) (l1 : list A) (l2 : list B) (y : B) :
  Forall2 R l1 l2 -> In y l2 -> exists x, In x l1 /\ R x y.
Proof.
  induction 1 as [|a b l1 l2 r _ IH]; simpl; [tauto|].
  intros [<-|I]; [eauto|]. destruct (IH I) as (x & J & K). eauto.
Qed.

Section CollectHooks.

Context {SI : SetIteration}.
Variables (depth : nat) (h : heap).

(** Every root has a chain that ends within the nesting allowance. *)
Lemma chains_exist (roots : list ref) :
  (forall root, In root roots ->
                exists nodes, chain h root nodes /\ List.length nodes <= depth) ->
  exists chains,
    Forall2 (chain h) roots chains
    /\ Forall (fun nodes => List.length nodes <= depth) chains.
Proof.
  induction roots as [|root roots IH]; intro E.
  - exists []. split; constructor.
  - destruct (E root (or_introl eq_refl)) as (nodes & C & L).
    destruct IH as (chains & F & G); [intros r I; apply E; now right|].
    exists (nodes :: chains). split; constructor; auto.
Qed.

(** C7, as the code has it.  When every control chain of the conditioning
    set ends, the collection returns, and the group it returns holds
    exactly the hooks it started with, the hooks of all entries and the
    extra hooks of every node on the chain of a control object, each hook
    once.  The walk itself is done branch by branch: in each branch every
    distinct control object is walked once, along its whole chain, so a
    node is looked at once for every branch and distinct control object of
    that branch whose chain holds it. *)
Theorem collect_hooks_union (conds : Conds) (g0 : hooks.HookGroup) :
  (forall root, In root (control_refs conds) ->
                exists nodes, chain h root nodes /\ List.length nodes <= depth) ->
  exists g walks,
    collect_hooks depth h conds g0 = (List.concat (List.concat walks), Some g)
    /\ Forall2 (fun kv chains =>
                  Forall2 (chain h) (set_iter (branch_controls (snd kv))) chains)
               conds walks
    /\ (NoDup (hooks.hooks g0) -> NoDup (hooks.hooks g))
    /\ forall x,
         In x (hooks.hooks g)
         <-> In x (hooks.hooks g0)
             \/ (exists c e, In c (entries conds) /\ c_hooks c = Some e
                             /\ In x (hooks.hooks e))
             \/ (exists root nodes n e,
                   In root (control_refs conds) /\ chain h root nodes
                   /\ In n nodes /\ extra_hooks (h n) = Some e
                   /\ In x (hooks.hooks e)).
Proof.
  revert g0. induction conds as [|[k cond] conds' IH]; intros g0 E.
  - exists g0, []. simpl. split; [reflexivity|]. split; [constructor|].
    split; [auto|]. intro x. split; [tauto|].
    intros [I|[(c & e & [] & _)|(root & nodes & n & e & [] & _)]]. exact I.
  - destruct (chains_exist (set_iter (branch_controls cond))) as (chains & F & L).
    { intros root I. apply E, in_control_refs. exists (k, cond).
      split; [now left|]. simpl. now rewrite set_iter_In in I. }
    destruct (get_hooks_from_cond_chains depth h cond g0 chains F L)
      as (g1 & R1 & D1 & M1).
    destruct (IH g1) as (g & walks & R & W & D & M).
    { intros root I. apply E. rewrite in_control_refs in *.
      destruct I as (kv & I & J). exists kv. split; [now right|auto]. }
    exists g, (chains :: walks). cbn [collect_hooks]. rewrite R1, R. split.
    { cbn [List.concat]. now rewrite concat_app. }
    split; [constructor; auto|]. split; [auto|].
    intro x. rewrite M, M1, in_branch_hooks. split.
    + intros [[I|[(c & e & I & J & K)|(e & I & J)]]
             |[(c & e & I & J & K)|(root & nodes & n & e & I & C & N & X & J)]].
      * auto.
      * right; left. exists c, e. split; auto.
        apply in_entries. exists (k, cond). split; [now left|auto].
      * right; right. apply in_extra_groups in I as (n & I & X).
        apply in_concat in I as (nodes & I & N).
        destruct (Forall2_in_right _ _ _ _ F I) as (root & Ir & C).
        exists root, nodes, n, e. repeat split; auto.
        apply in_control_refs. exists (k, cond). split; [now left|].
        simpl. now rewrite set_iter_In in Ir.
      * right; left. exists c, e. split; auto.
        apply in_entries in I as (kv & I & I'). apply in_entries.
        exists kv. split; [now right|auto].
      * right; right. exists root, nodes, n, e. repeat split; auto.
        apply in_control_refs in I as (kv & I & I'). apply in_control_refs.
        exists kv. split; [now right|auto].
    + intros [I|[(c & e & I & J & K)|(root & nodes & n & e & I & C & N & X & J)]].
      * auto.
      * apply in_entries in I as (kv & [<-|I] & I').
        -- left; right; left. exists c, e. auto.
        -- right; left. exists c, e. split; auto.
           apply in_entries. exists kv. auto.
      * apply in_control_refs in I as (kv & [<-|I] & I').
        -- left; right; right. exists e. split; auto.
           apply in_extra_groups. exists n. split; auto.
           apply in_concat.
           simpl in I'. rewrite <- set_iter_In in I'.
           destruct (Forall2_in_left _ _ _ _ F I') as (nodes' & In' & C').
           exists nodes'. split; auto.
           now rewrite (chain_unique _ _ _ _ C' C).
        -- right; right. exists root, nodes, n, e. repeat split; auto.
           apply in_control_refs. exists kv. auto.
Qed.

End CollectHooks.

Lemma chain_heap_tail : chain examples.chain_heap 11%positive [11%positive].
Proof. apply chain_last. reflexivity. Qed.

Lemma collect_hooks_union_witness :
  exists g walks,
    collect_hooks (SI := nodup_iteration) 2 examples.chain_heap
      examples.conds_shared_tail hooks.empty
    = (List.concat (List.concat walks), Some g)
    /\ Forall2 (fun kv chains =>
                  Forall2 (chain examples.chain_heap)
                          (set_iter (branch_controls (snd kv))) chains)
               examples.conds_shared_tail walks
    /\ (NoDup (hooks.hooks hooks.empty) -> NoDup (hooks.hooks g))
    /\ forall x,
         In x (hooks.hooks g)
         <-> In x (hooks.hooks hooks.empty)
             \/ (exists c e, In c (entries examples.conds_shared_tail)
                             /\ c_hooks c = Some e /\ In x (hooks.hooks e))
             \/ (exists root nodes n e,
                   In root (control_refs examples.conds_shared_tail)
                   /\ chain examples.chain_heap root nodes
                   /\ In n nodes /\ extra_hooks (examples.chain_heap n) = Some e
                   /\ In x (hooks.hooks e)).
Proof.
  apply (collect_hooks_union (SI := nodup_iteration) 2 examples.chain_heap
           examples.conds_shared_tail hooks.empty).
  intros root [<-|[<-|[]]].
  - exists [10; 11]%positive. split; [exact chain_heap_chain|simpl; lia].
  - exists [11%positive]. split; [exact chain_heap_tail|simpl; lia].
Defined.

(** C7 as stated fails: with the head of a chain in one branch and its tail
    in the other, the tail node is looked at twice; the hooks collected are
    still each there once. *)
Lemma collect_hooks_revisits :
  collect_hooks (SI := nodup_iteration) 2 examples.chain_heap
    examples.conds_shared_tail hooks.empty
  = ([10; 11; 11]%positive,
     Some (hooks.mkHookGroup [examples.hookA; examples.hookC; examples.hookB]))
  /\ ~ NoDup [10; 11; 11]%positive.
Proof.
  split; [reflexivity|].
  intro N. inversion N as [|x l _ N']; subst.
  inversion N' as [|y l' Hin _]; subst. apply Hin. now left.
Qed.

(** ** Registering hooks leaves the registrations of the patcher alone *)

Lemma nth_error_write (s : store) (l l' : loc) (o : obj) :
  l < List.length s ->
  nth_error (firstn l s ++ o :: skipn (S l) s) l'
  = if Nat.eqb l' l then Some o else nth_error s l'.
Proof.
  revert l l'; induction s as [|x s IH]; intros l l' L; simpl in L; [lia|].
  destruct l as [|l]; destruct l' as [|l']; simpl; auto.
  apply IH. lia.
Qed.

Lemma length_write (s : store) (l : loc) (o : obj) :
  l < List.length s ->
  List.length (firstn l s ++ o :: skipn (S l) s) = List.length s.
Proof.
  revert l; induction s as [|x s IH]; intros l L; simpl in L; [lia|].
  destruct l as [|l]; simpl; auto. rewrite IH; auto. lia.
Qed.

Lemma dict_get_refs (items : dict val) (k : string) (v : val) (l : loc) :
  dict_get items k = Some v -> In l (val_refs v) ->
  In l (obj_refs (DictObj items)).
Proof.
  simpl. induction items as [|[k0 v0] items IH]; simpl; [discriminate|].
  intros E I. apply in_or_app.
  destruct (String.eqb k0 k); [injection E as ->; auto|right; auto].
Qed.

Lemma dict_set_refs (items : dict val) (k : string) (v : val) (l : loc) :
  In l (obj_refs (DictObj (dict_set items k v))) ->
  In l (obj_refs (DictObj items)) \/ In l (val_refs v).
Proof.
  simpl. induction items as [|[k0 v0] items IH]; simpl.
  - rewrite app_nil_r. auto.
  - destruct (String.eqb k0 k); simpl; rewrite !in_app_iff; intuition.
Qed.

Lemma in_items_refs (items : dict val) (kv : string * val) (l : loc) :
  In kv items -> In l (val_refs (snd kv)) -> In l (obj_refs (DictObj items)).
Proof. intros I J. simpl. apply in_flat_map. eauto. Qed.

Lemma within_monotone (v : val) : monotone (fun O => within O v).
Proof. intros O O' S W l I. auto. Qed.

Section StoreFrame.

Variables (s0 : store) (M : region).
Hypothesis M_allocated : forall l, M l -> l < List.length s0.

Local Abbreviation safe0 := (safe s0 M).

Lemma safe_ret {A} (a : A) (P : region -> Prop) (Q : A -> region -> Prop) :
  (forall O, P O -> Q a O) -> safe0 (st_ret a) P Q.
Proof.
  intros PQ. unfold safe. intros s O I p. exists O. simpl.
  split; [auto|]. split; [exact I|]. intros a' [= <-]. auto.
Qed.

Lemma safe_fail {A} (P : region -> Prop) (Q : A -> region -> Prop) :
  safe0 st_fail P Q.
Proof.
  unfold safe. intros s O I p. exists O. simpl.
  split; [auto|]. split; [exact I|]. discriminate.
Qed.

Lemma safe_bind {A B} (m : ST A) (k : A -> ST B) (P : region -> Prop)
    (Q : A -> region -> Prop) (R : B -> region -> Prop) :
  monotone P -> safe0 m P Q ->
  (forall a, safe0 (k a) (fun O => P O /\ Q a O) R) ->
  safe0 (st_bind m k) P R.
Proof.
  intros Mo Hm Hk. unfold safe. intros s O I p. unfold st_bind.
  destruct (Hm s O I p) as (O1 & S1 & I1 & Q1).
  destruct (m s) as [s1 [a|]]; simpl in *.
  - destruct (Hk a s1 O1 I1 (conj (Mo _ _ S1 p) (Q1 a eq_refl)))
      as (O2 & S2 & I2 & R2).
    exists O2. split; [auto|]. split; auto.
  - exists O1. split; [auto|]. split; [auto|]. discriminate.
Qed.

Lemma safe_weaken {A} (m : ST A) (P P' : region -> Prop)
    (Q Q' : A -> region -> Prop) :
  (forall O, P' O -> P O) -> (forall a O, Q a O -> Q' a O) ->
  safe0 m P Q -> safe0 m P' Q'.
Proof.
  intros PP QQ Hm. unfold safe. intros s O I p. destruct (Hm s O I (PP _ p)) as (O1 & S1 & I1 & Q1).
  exists O1. split; [auto|]. split; auto.
Qed.

Lemma safe_pre {A} (m : ST A) (P P' : region -> Prop) (Q : A -> region -> Prop) :
  (forall O, P' O -> P O) -> safe0 m P Q -> safe0 m P' Q.
Proof. intros PP. apply safe_weaken; auto. Qed.

Lemma safe_load (l : loc) : safe0 (load l) (fun _ => True) (fun _ _ => True).
Proof. unfold safe. intros s O I _. exists O. simpl. auto. Qed.

Lemma safe_load_in (l : loc) :
  safe0 (load l) (fun O => O l) (fun o O => forall l', In l' (obj_refs o) -> O l').
Proof.
  unfold safe. intros s O I p. exists O. simpl.
  split; [auto|]. split; [exact I|].
  intros o E l' J. destruct I as (_ & _ & C & _). eapply C; eauto.
Qed.

Lemma safe_alloc (o : obj) :
  safe0 (alloc o) (fun O => forall l', In l' (obj_refs o) -> O l') (fun l O => O l).
Proof.
  unfold safe. intros s O (L & A & C & D & U) p.
  exists (fun l => O l \/ l = List.length s). simpl.
  split; [auto|]. split.
  - repeat split.
    + rewrite length_app. simpl. lia.
    + intros l [I| ->]; rewrite length_app; simpl; [apply A in I|]; lia.
    + intros l o1 l' [I| ->] E J.
      * rewrite nth_error_app1 in E by auto. left. eapply C; eauto.
      * rewrite nth_error_app2, Nat.sub_diag in E by lia.
        injection E as <-. left. auto.
    + intros l [I| ->] m; [eapply D; eauto|].
      apply M_allocated in m. lia.
    + intros l m. rewrite nth_error_app1; auto.
      apply M_allocated in m. lia.
  - intros a [= <-]. now right.
Qed.

Lemma safe_write (l : loc) (o : obj) :
  safe0 (write l o) (fun O => O l /\ forall l', In l' (obj_refs o) -> O l')
       (fun _ _ => True).
Proof.
  unfold safe. intros s O (L & A & C & D & U) (p & q). exists O. unfold write.
  pose proof (A l p) as V. apply Nat.ltb_lt in V. rewrite V.
  apply Nat.ltb_lt in V. simpl. split; [auto|]. split; [|auto].
  repeat split; auto.
  - rewrite length_write; auto.
  - intros l1 I. rewrite length_write; auto.
  - intros l1 o1 l' I E J. rewrite nth_error_write in E by auto.
    destruct (Nat.eqb l1 l); [injection E as <-; auto|eapply C; eauto].
  - intros l1 m. rewrite nth_error_write by auto.
    destruct (Nat.eqb_spec l1 l) as [->|_]; [|auto].
    exfalso. eapply D; eauto.
Qed.

Lemma safe_getitem (d : val) (k : string) :
  safe0 (getitem d k) (fun O => within O d) (fun v O => within O v).
Proof.
  destruct d as [a|l|g]; try apply safe_fail. simpl.
  eapply safe_bind; [apply within_monotone| |].
  - eapply safe_pre; [|apply (safe_load_in l)]; simpl.
    intros O W. apply W. now left.
  - intros [items|items]; [|apply safe_fail].
    destruct (dict_get items k) as [v|] eqn:E; [|apply safe_fail].
    apply safe_ret. intros O [_ R] l' I. apply R. eapply dict_get_refs; eauto.
Qed.

Lemma safe_setitem (d : val) (k : string) (v : val) :
  safe0 (setitem d k v) (fun O => within O d /\ within O v) (fun _ _ => True).
Proof.
  destruct d as [a|l|g]; try apply safe_fail. simpl.
  eapply safe_bind.
  - intros O O' S [W1 W2]. split; eapply within_monotone; eauto.
  - eapply safe_pre; [|apply (safe_load_in l)]; simpl.
    intros O [W _]. apply W. now left.
  - intros [items|items]; [|apply safe_fail].
    eapply safe_pre; [|apply safe_write]; simpl.
    intros O [[W1 W2] R]. split; [apply W1; now left|].
    intros l' I. apply dict_set_refs in I as [I|I]; auto.
Qed.

Lemma safe_setdefault_dict (d : val) (k : string) :
  safe0 (setdefault_dict d k) (fun O => within O d) (fun v O => within O v).
Proof.
  unfold setdefault_dict.
  eapply safe_bind; [apply within_monotone| |].
  - eapply safe_pre; [|apply (safe_alloc (DictObj []))]; simpl.
    intros O _ l' [].
  - intro fresh. destruct d as [a|l|g]; try apply safe_fail.
    eapply safe_bind.
    + intros O O' S [W F]. split; [eapply within_monotone; eauto|auto].
    + eapply safe_pre; [|apply (safe_load_in l)]; simpl.
      intros O [W _]. apply W. now left.
    + intros [items|items]; [|apply safe_fail].
      destruct (dict_get items k) as [v|] eqn:E.
      * apply safe_ret. intros O [_ R] l' I. apply R. eapply dict_get_refs; eauto.
      * eapply safe_bind.
        -- intros O O' S [[W F] R]. repeat split; auto.
           eapply within_monotone; eauto.
        -- eapply safe_pre; [|apply safe_write]; simpl.
           intros O [[W F] R]. split; [apply W; now left|].
           intros l' I. apply dict_set_refs in I as [I|[X|[]]]; subst; auto.
        -- intros u. apply safe_ret. intros O [[[W F] R] _] l' [X|[]].
           subst. exact F.
Qed.

Lemma safe_for_each {A} (f : A -> ST unit) (l : list A) (P : region -> Prop) :
  monotone P ->
  (forall x, In x l -> safe0 (f x) P (fun _ _ => True)) ->
  safe0 (for_each f l) P (fun _ _ => True).
Proof.
  intros Mo. induction l as [|x l IH]; intro F; simpl.
  - apply safe_ret. auto.
  - eapply safe_bind; [exact Mo|apply F; now left|].
    intro u. eapply safe_pre; [|apply IH].
    + intros O [p _]. exact p.
    + intros y I. apply F. now right.
Qed.

Lemma safe_fold_st {A B} (f : A -> B -> ST A) (l : list B) (a : A)
    (P : region -> Prop) :
  monotone P ->
  (forall a x, safe0 (f a x) P (fun _ _ => True)) ->
  safe0 (fold_st f a l) P (fun _ _ => True).
Proof.
  intros Mo F. revert a. induction l as [|x l IH]; intro a; simpl.
  - apply safe_ret. auto.
  - eapply safe_bind; [exact Mo|apply F|].
    intro a'. eapply safe_pre; [|apply IH]. intros O [p _]. exact p.
Qed.

Lemma safe_map_st {A B} (f : A -> ST B) (l : list A) (P : region -> Prop)
    (Q : B -> region -> Prop) :
  monotone P -> (forall y, monotone (Q y)) ->
  (forall x, safe0 (f x) P Q) ->
  safe0 (map_st f l) P (fun ys O => forall y, In y ys -> Q y O).
Proof.
  intros Mo MQ F. induction l as [|x l IH]; simpl.
  - apply safe_ret. intros O _ y [].
  - eapply safe_bind; [exact Mo|apply F|].
    intro y. eapply safe_bind.
    + intros O O' S [p q]. split; [eapply Mo|eapply MQ]; eauto.
    + eapply safe_pre; [|apply IH]. intros O [p _]. exact p.
    + intro ys. apply safe_ret.
      intros O [[_ q] R] y' [<-|I]; auto.
Qed.

(** The copy is built from new objects only. *)
Lemma safe_copy_nested_dicts (fuel : nat) :
  forall v, safe0 (copy_nested_dicts fuel v) (fun _ => True)
                  (fun v' O => within O v').
Proof.
  induction fuel as [|fuel IH]; intros [a|l|g]; simpl;
    try apply safe_fail;
    try (apply safe_ret; intros O _ l' []).
  eapply safe_bind; [intros O O' _ p; exact p|apply safe_load|].
  intros [items|items].
  - eapply safe_bind; [intros O O' _ p; exact p| |].
    + eapply safe_pre;
        [|apply (safe_map_st
                   (fun kv => (v' <- copy_nested_dicts fuel (snd kv) ;;
                               st_ret (fst kv, v'))%st)
                   items (fun _ => True)
                   (fun kv' O => within O (snd kv')))].
      * intros; exact I.
      * intros O O' _ _. exact I.
      * intros y. apply (within_monotone (snd y)).
      * intros kv. eapply safe_bind; [intros O O' _ p; exact p|apply IH|].
        intro v'. apply safe_ret. intros O [_ W]. exact W.
    + intro items'. eapply safe_bind.
      * intros O O' S [p W]. split; [exact p|].
        intros y J. eapply within_monotone; eauto.
      * eapply safe_pre; [|apply (safe_alloc (DictObj items'))].
        intros O [_ W] l' J. simpl in J. apply in_flat_map in J as (kv & J & K).
        eapply W; eauto.
      * intro l'. apply safe_ret. intros O [_ W] x [<-|[]]. exact W.
  - eapply safe_bind; [intros O O' _ p; exact p| |].
    + eapply safe_pre;
        [|apply (safe_map_st (copy_nested_dicts fuel) items (fun _ => True)
                   (fun v' O => within O v'))].
      * intros; exact I.
      * intros O O' _ _. exact I.
      * intros y. apply (within_monotone y).
      * apply IH.
    + intro items'. eapply safe_bind.
      * intros O O' S [p W]. split; [exact p|].
        intros y J. eapply within_monotone; eauto.
      * eapply safe_pre; [|apply (safe_alloc (ListObj items'))].
        intros O [_ W] l' J. simpl in J. apply in_flat_map in J as (v' & J & K).
        eapply W; eauto.
      * intro l'. apply safe_ret. intros O [_ W] x [<-|[]]. exact W.
Qed.

(** The merge works on what its two arguments lead to, nothing else. *)
Lemma safe_merge_nested_dicts (fuel : nat) :
  forall dict1 dict2,
    safe0 (merge_nested_dicts fuel dict1 dict2)
          (fun O => within O dict1 /\ within O dict2) (fun _ _ => True).
Proof.
  induction fuel as [|fuel IH]; intros dict1 dict2; simpl; [apply safe_fail|].
  destruct dict1 as [?|l1|?]; try apply safe_fail.
  destruct dict2 as [?|l2|?]; try apply safe_fail.
  assert (Mo : monotone (fun O : region => within O (Ref l1) /\ within O (Ref l2))).
  { intros O O' S [W1 W2]. split; eapply within_monotone; eauto. }
  eapply safe_bind; [exact Mo| |].
  { eapply safe_pre; [|apply (safe_load_in l2)].
    intros O [_ W]. apply W. now left. }
  intros [items2|items2]; [|apply safe_fail].
  set (P := fun O : region =>
              (within O (Ref l1) /\ within O (Ref l2))
              /\ forall l', In l' (obj_refs (DictObj items2)) -> O l').
  assert (MP : monotone P).
  { intros O O' S [p R]. split; [eapply Mo; eauto|auto]. }
  apply safe_for_each; [exact MP|].
  intros kv K.
  eapply safe_bind; [exact MP| |].
  { eapply safe_pre; [|apply (safe_load_in l1)].
    intros O [[W _] _]. apply W. now left. }
  intros [items1|items1]; [|apply safe_fail].
  destruct (dict_get items1 (fst kv)) as [[a|a|g]|] eqn:E;
    try (apply safe_ret; auto).
  - destruct (snd kv) as [b|b|g] eqn:V; try (apply safe_ret; auto).
    eapply safe_bind.
    { intros O O' S [p R]. split; [eapply MP; eauto|auto]. }
    { eapply safe_pre; [|apply (safe_load_in a)].
      intros O [_ R]. apply R. eapply dict_get_refs; eauto. now left. }
    intro oa. eapply safe_bind.
    { intros O O' S [[p R] Ra].
      split; [split; [eapply MP; eauto|auto]|auto]. }
    { eapply safe_pre; [|apply (safe_load_in b)].
      intros O [[[_ R2] _] _]. apply R2. eapply in_items_refs; eauto.
      rewrite V. now left. }
    intro ob.
    destruct oa as [xs|xs]; destruct ob as [ys|ys]; try (apply safe_ret; auto).
    + eapply safe_pre; [|apply IH].
      intros O [[[[_ R2] R1] _] _]. split; intros x [<-|[]].
      * apply R1. eapply dict_get_refs; eauto. now left.
      * apply R2. eapply in_items_refs; eauto. rewrite V. now left.
    + eapply safe_pre; [|apply safe_write].
      intros O [[[[_ R2] R1] Ra] Rb]. split.
      * apply R1. eapply dict_get_refs; eauto. now left.
      * intros x X. simpl in X. rewrite flat_map_app in X.
        apply in_app_or in X as [X|X]; [apply Ra|apply Rb]; exact X.
  - eapply safe_pre; [|apply safe_write].
    intros O [[[W1 _] R2] R1]. split; [apply W1; now left|].
    intros x X. apply dict_set_refs in X as [X|X]; [auto|].
    apply R2. eapply in_items_refs; eauto.
Qed.

(** A computation that acts through [v] keeps the invariant when [v] lies
    in the set worked on. *)
Lemma safe_acts_through {A} (v : val) (m : ST A) :
  acts_through v m -> safe0 m (fun O => within O v) (fun _ _ => True).
Proof.
  intros T. unfold safe. intros s O (L & A' & C & D & U) W.
  destruct (T s O A' C W) as (G & F & C').
  exists (fun l => O l \/ (List.length s <= l < List.length (fst (m s)))).
  split; [auto|]. split; [|auto].
  repeat split; auto.
  - lia.
  - intros l [I|I]; [apply A' in I|]; lia.
  - intros l [I|I] m'; [eapply D; eauto|].
    apply M_allocated in m'. lia.
  - intros l m'. rewrite F; auto.
    + apply M_allocated in m'. lia.
    + intro I. eapply D; eauto.
Qed.

Ltac mono :=
  let O := fresh "O" in
  let O' := fresh "O'" in
  let S := fresh "S" in
  let H := fresh "H" in
  intros O O' S H;
  repeat match goal with
         | X : _ /\ _ |- _ => destruct X
         end;
  repeat split;
  try (eapply within_monotone; eassumption);
  auto.

Ltac from_pre := let O := fresh "O" in intros O; intuition auto.

Ltac step lemma :=
  eapply safe_bind; [mono | eapply safe_pre; [|apply lemma]; from_pre |].

Context {SI : SetIteration}.

Lemma safe_prepare_model_patcher (depth fuel : nat) (calls : HookCalls)
    (h : heap) (model : ModelPatcher) (conds : Conds) (model_options : val) :
  (forall hook registered,
     acts_through model_options
       (add_hook_patches calls hook model model_options registered)) ->
  (forall hooks registered,
     acts_through model_options
       (register_all_hook_patches calls model hooks model_options registered)) ->
  safe0 (prepare_model_patcher depth fuel calls h model conds model_options)
        (fun O => within O model_options) (fun _ _ => True).
Proof.
  intros A1 A2. unfold prepare_model_patcher.
  destruct (snd (collect_hooks depth h conds hooks.empty)) as [hs|];
    [|apply safe_fail].
  step (safe_copy_nested_dicts fuel (model_patcher.wrappers model)). intro w.
  step (safe_getitem model_options "transformer_options"). intro t1.
  step (safe_setitem t1 "wrappers" w). intro u1.
  step (safe_copy_nested_dicts fuel (model_patcher.callbacks model)). intro c.
  step (safe_getitem model_options "transformer_options"). intro t2.
  step (safe_setitem t2 "callbacks" c). intro u2.
  assert (F : forall l r,
             safe0 (fold_st (fun registered hook =>
                               add_hook_patches calls hook model model_options
                                 registered) r l)
                   (fun O => within O model_options) (fun _ _ => True)).
  { intros l r. apply safe_fold_st; [apply within_monotone|].
    intros a x. apply safe_acts_through, A1. }
  step (F (hooks.get_type hs hooks.TransformerOptions) hooks.empty). intro r1.
  step (F (hooks.get_type hs hooks.AdditionalModels) r1). intro r2.
  step (safe_acts_through _ _ (A2 hs r2)). intro r3.
  eapply safe_bind; [mono| |].
  { destruct (0 <? List.length (hooks.hooks r3)).
    - eapply safe_pre; [|apply (safe_setitem model_options "registered_hooks")].
      intros O H. split; [intuition auto|]. intros l [].
    - apply safe_ret. auto. }
  intro u3.
  step (safe_setdefault_dict model_options "to_load_options"). intro tlo.
  eapply safe_bind; [mono| |].
  { apply safe_for_each; [mono|].
    intros wc_name _.
    step (safe_setdefault_dict tlo wc_name). intro d1.
    step (safe_getitem model_options "transformer_options"). intro t3.
    step (safe_getitem t3 wc_name). intro d2.
    eapply safe_pre; [|apply (safe_merge_nested_dicts fuel d1 d2)]. from_pre. }
  intro u4. apply safe_ret. auto.
Qed.

End StoreFrame.

Lemma reach_allocated (s : store) (v : val) :
  well_formed s -> within (fun l => l < List.length s) v ->
  forall l, reach s v l -> l < List.length s.
Proof.
  intros W V l R. induction R as [l E|l o l' R IH E I].
  - apply V. rewrite E. now left.
  - eapply W; eauto.
Qed.

Lemma reach_via (s : store) (v v' : val) (l : loc) (o : obj) :
  reach s v l -> nth_error s l = Some o ->
  (forall x, In x (val_refs v') -> In x (obj_refs o)) ->
  forall x, reach s v' x -> reach s v x.
Proof.
  intros R E S x R'. induction R' as [x X|y o' x R' IH E' I].
  - eapply reach_step; eauto. apply S. rewrite X. now left.
  - eapply reach_step; eauto.
Qed.

Lemma option_map_all_ext {A B} (f g : A -> option B) (l : list A) :
  (forall x, In x l -> f x = g x) -> option_map_all f l = option_map_all g l.
Proof.
  induction l as [|x l IH]; intro E; simpl; auto.
  rewrite (E x (or_introl eq_refl)), IH; auto.
  intros y I. apply E. now right.
Qed.

(** Objects that are the same in two stores stand for the same nested
    value. *)
Lemma snapshot_frame (s s' : store) (fuel : nat) :
  forall v,
    (forall l, reach s v l -> nth_error s' l = nth_error s l) ->
    snapshot fuel s' v = snapshot fuel s v.
Proof.
  induction fuel as [|fuel IH]; intros [a|l|g] F; simpl; auto.
  assert (R : reach s (Ref l) l) by now constructor.
  rewrite (F l R).
  destruct (nth_error s l) as [[items|items]|] eqn:E; auto; f_equal;
    apply option_map_all_ext.
  - intros kv K. f_equal. apply IH. intros x X. apply F.
    eapply reach_via; eauto. intros y Y. eapply in_items_refs; eauto.
  - intros v K. apply IH. intros x X. apply F.
    eapply reach_via; eauto. intros y Y. simpl. apply in_flat_map. eauto.
Qed.

Section Registrations.

Context {SI : SetIteration}.


End Registrations.

Lemma store1_well_formed : well_formed examples.store1.
Proof.
  intros l o l' E I.
  do 6 (destruct l as [|l]; [injection E as <-; simpl in I; simpl; intuition lia|]).
  destruct l; discriminate.
Qed.

Lemma store1_options_reach (l : loc) :
  reach examples.store1 (Ref 4) l -> l = 4 \/ l = 5.
Proof.
  induction 1 as [l E|l o l' R IH E I].
  - injection E as <-. now left.
  - destruct IH as [-> | ->]; injection E as <-; simpl in I; intuition.
Qed.

Lemma store1_registrations_reach (l : loc) :
  reach examples.store1 (Ref 0) l \/ reach examples.store1 (Ref 3) l -> l < 4.
Proof.
  intros [R|R].
  - assert (G : l = 0 \/ l = 1 \/ l = 2); [|lia].
    induction R as [l E|l o l' R IH E I].
    + injection E as <-. now left.
    + destruct IH as [-> | [-> | ->]]; injection E as <-; simpl in I; intuition.
  - assert (G : l = 3); [|lia].
    induction R as [l E|l o l' R IH E I].
    + now injection E as <-.
    + subst l. injection E as <-. destruct I.
Qed.

Lemma quiet_acts_through {A} (v : val) (a : A) : acts_through v (st_ret a).
Proof.
  intros s O Al C W. simpl. split; [lia|]. split; [auto|].
  intros l o l' [I|I] E J; [left; eapply C; eauto|].
  apply nth_error_Some_lt in E || (assert (l < List.length s) by
    (apply nth_error_Some; congruence)); lia.
Qed.


(** The run of the witness: the options get copies of the registrations
    (new objects 6 to 9), the registry, and [to_load_options] built from
    the copies; objects 0 to 3 are as before. *)
Example prepare_model_patcher_run :
  prepare_model_patcher (SI := nodup_iteration) 2 5 examples.quiet_calls
    examples.chain_heap examples.patcher examples.conds_shared_tail
    (Ref 4) examples.store1
  = ([DictObj [("outer_sample"%string, Ref 1)];
      DictObj [("key"%string, Ref 2)];
      ListObj [Atom 7];
      DictObj [];
      DictObj [("transformer_options"%string, Ref 5);
               ("registered_hooks"%string,
                Group (hooks.mkHookGroup [examples.hookA]));
               ("to_load_options"%string, Ref 10)];
      DictObj [("wrappers"%string, Ref 8); ("callbacks"%string, Ref 9)];
      ListObj [Atom 7];
      DictObj [("key"%string, Ref 6)];
      DictObj [("outer_sample"%string, Ref 7)];
      DictObj [];
      DictObj [("wrappers"%string, Ref 11); ("callbacks"%string, Ref 12)];
      DictObj [("outer_sample"%string, Ref 7)];
      DictObj []],
     Some (Ref 10)).
Proof. reflexivity. Qed.


(** * Further properties of the code *)

(** ** Dict lookups after updates *)

Lemma dict_get_set_eq {V} (d : dict V) (k : string) (v : V) :
  dict_get (dict_set d k v) k = Some v.
Proof.
  induction d as [|[k0 v0] d IH]; simpl.
  - now rewrite String.eqb_refl.
  - destruct (String.eqb k0 k) eqn:E; simpl; rewrite E; auto.
Qed.

Lemma dict_get_set_neq {V} (d : dict V) (k k' : string) (v : V) :
  k <> k' -> dict_get (dict_set d k v) k' = dict_get d k'.
Proof.
  intro N. induction d as [|[k0 v0] d IH]; simpl.
  - apply String.eqb_neq in N. now rewrite N.
  - destruct (String.eqb_spec k0 k) as [->|N0]; simpl.
    + apply String.eqb_neq in N. now rewrite N.
    + now rewrite IH.
Qed.

Lemma dict_keys_set {V} (d : dict V) (k : string) (v : V) :
  exists added, dict_keys (dict_set d k v) = dict_keys d ++ added.
Proof.
  unfold dict_keys. induction d as [|[k0 v0] d [added IH]]; simpl.
  - now exists [k].
  - destruct (String.eqb k0 k); simpl.
    + exists []. now rewrite app_nil_r.
    + exists added. now rewrite IH.
Qed.

(** ** [convert_cond] *)

Lemma convert_cond_loop (uuid4 : nat -> N)
    (cond : list (option cond_value * dict cond_value)) :
  forall out calls,
    fst (fold_left
           (fun (acc : list (dict cond_value) * nat) c =>
              let '(out, calls) := acc in
              let temp := snd c in
              let model_conds :=
                match dict_get temp "model_conds" with
                | Some v => v
                | None => ModelConds []
                end in
              let temp :=
                match fst c with
                | Some t => dict_set temp "cross_attn" t
                | None => temp
                end in
              let temp := dict_set temp "model_conds" model_conds in
              let temp := dict_set temp "uuid" (Uuid (uuid4 calls)) in
              (out ++ [temp], S calls))
           cond (out, calls))
    = out ++ convert_cond uuid4 calls cond.
Proof.
  unfold convert_cond.
  induction cond as [|c cond IH]; intros out calls; simpl.
  - now rewrite app_nil_r.
  - rewrite IH. rewrite (IH [_]). now rewrite <- app_assoc.
Qed.

Lemma convert_cond_cons (uuid4 : nat -> N) (calls : nat)
    (c : option cond_value * dict cond_value)
    (cond : list (option cond_value * dict cond_value)) :
  convert_cond uuid4 calls (c :: cond)
  = converted (uuid4 calls) c :: convert_cond uuid4 (S calls) cond.
Proof.
  unfold convert_cond at 1. simpl. now rewrite convert_cond_loop.
Qed.

Lemma convert_cond_nth (uuid4 : nat -> N)
    (cond : list (option cond_value * dict cond_value)) :
  forall calls i c,
    nth_error cond i = Some c ->
    nth_error (convert_cond uuid4 calls cond) i
    = Some (converted (uuid4 (calls + i)) c).
Proof.
  induction cond as [|x cond IH]; intros calls i c E; [destruct i; discriminate|].
  rewrite convert_cond_cons. destruct i as [|i]; simpl in *.
  - injection E as ->. now rewrite Nat.add_0_r.
  - rewrite (IH (S calls) i c E). do 3 f_equal. lia.
Qed.

(** X1.  The entry [convert_cond] gives for the pair at position [i] has a
    new identifier under ["uuid"], has under ["model_conds"] what the dict
    of the pair had there, or an empty dict, and has [c[0]] under
    ["cross_attn"] unless [c[0]] is [None], in which case ["cross_attn"] is
    as in the dict of the pair. *)
Theorem convert_cond_sets_keys (uuid4 : nat -> N) (calls : nat)
    (cond : list (option cond_value * dict cond_value)) (i : nat)
    (c0 : option cond_value) (d : dict cond_value) :
  nth_error cond i = Some (c0, d) ->
  exists temp,
    nth_error (convert_cond uuid4 calls cond) i = Some temp
    /\ dict_get temp "uuid" = Some (Uuid (uuid4 (calls + i)))
    /\ dict_get temp "model_conds"
       = Some (match dict_get d "model_conds" with
               | Some v => v
               | None => ModelConds []
               end)
    /\ dict_get temp "cross_attn"
       = match c0 with
         | Some t => Some t
         | None => dict_get d "cross_attn"
         end.
Proof.
  intro E. eexists. split; [apply convert_cond_nth; exact E|].
  unfold converted. simpl. split; [apply dict_get_set_eq|]. split.
  - rewrite dict_get_set_neq by discriminate. apply dict_get_set_eq.
  - rewrite !dict_get_set_neq by discriminate.
    destruct c0 as [t|]; [apply dict_get_set_eq|reflexivity].
Qed.

Lemma convert_cond_sets_keys_witness :
  exists temp,
    nth_error (convert_cond N.of_nat 7 examples2.pairs) 0 = Some temp
    /\ dict_get temp "uuid" = Some (Uuid (N.of_nat (7 + 0)))
    /\ dict_get temp "model_conds" = Some (ModelConds [("y"%string, 3)])
    /\ dict_get temp "cross_attn" = Some (Tensor 1).
Proof.
  apply (convert_cond_sets_keys N.of_nat 7 examples2.pairs 0 (Some (Tensor 1))
           [("model_conds"%string, ModelConds [("y"%string, 3)]);
            ("control"%string, Object 5%positive);
            ("uuid"%string, Uuid 99)]).
  reflexivity.
Defined.

(** X2.  [convert_cond] leaves every other key of the dict of a pair with
    its value, and keeps the keys the dict had in their order, new keys
    coming after them. *)
Theorem convert_cond_keeps_keys (uuid4 : nat -> N) (calls : nat)
    (cond : list (option cond_value * dict cond_value)) (i : nat)
    (c0 : option cond_value) (d : dict cond_value) :
  nth_error cond i = Some (c0, d) ->
  exists temp added,
    nth_error (convert_cond uuid4 calls cond) i = Some temp
    /\ (forall k, k <> "cross_attn"%string -> k <> "model_conds"%string ->
                  k <> "uuid"%string -> dict_get temp k = dict_get d k)
    /\ dict_keys temp = dict_keys d ++ added.
Proof.
  intro E.
  exists (converted (uuid4 (calls + i)) (c0, d)).
  assert (K : exists added,
             dict_keys (converted (uuid4 (calls + i)) (c0, d))
             = dict_keys d ++ added).
  { unfold converted. simpl.
    destruct (dict_keys_set
                (dict_set match c0 with
                          | Some t => dict_set d "cross_attn" t
                          | None => d
                          end "model_conds"
                          match dict_get d "model_conds" with
                          | Some v => v
                          | None => ModelConds []
                          end)
                "uuid" (Uuid (uuid4 (calls + i)))) as [a3 ->].
    destruct (dict_keys_set
                match c0 with
                | Some t => dict_set d "cross_attn" t
                | None => d
                end "model_conds"
                match dict_get d "model_conds" with
                | Some v => v
                | None => ModelConds []
                end) as [a2 ->].
    destruct c0 as [t|].
    - destruct (dict_keys_set d "cross_attn" t) as [a1 ->].
      exists (a1 ++ a2 ++ a3). now rewrite <- !app_assoc.
    - exists (a2 ++ a3). now rewrite <- !app_assoc. }
  destruct K as [added K]. exists added.
  split; [apply convert_cond_nth; exact E|]. split; [|exact K].
  intros k N1 N2 N3. unfold converted. simpl.
  rewrite !dict_get_set_neq by congruence.
  destruct c0 as [t|]; [apply dict_get_set_neq; congruence|reflexivity].
Qed.

Lemma convert_cond_keeps_keys_witness :
  exists temp added,
    nth_error (convert_cond N.of_nat 7 examples2.pairs) 1 = Some temp
    /\ (forall k, k <> "cross_attn"%string -> k <> "model_conds"%string ->
                  k <> "uuid"%string ->
                  dict_get temp k = dict_get [("pooled_output"%string, Tensor 2)] k)
    /\ dict_keys temp = dict_keys [("pooled_output"%string, Tensor 2)] ++ added.
Proof.
  apply (convert_cond_keeps_keys N.of_nat 7 examples2.pairs 1 None
           [("pooled_output"%string, Tensor 2)]).
  reflexivity.
Defined.

(** X3.  [convert_cond] gives one entry per pair, in order: the result for a
    concatenation is the concatenation of the results, the second part
    drawing its identifiers after those of the first. *)
Theorem convert_cond_app (uuid4 : nat -> N) (calls : nat)
    (cond1 cond2 : list (option cond_value * dict cond_value)) :
  convert_cond uuid4 calls (cond1 ++ cond2)
  = convert_cond uuid4 calls cond1
    ++ convert_cond uuid4 (calls + List.length cond1) cond2
  /\ List.length (convert_cond uuid4 calls cond1) = List.length cond1.
Proof.
  split.
  - revert calls. induction cond1 as [|c cond1 IH]; intro calls; simpl.
    + now rewrite Nat.add_0_r.
    + rewrite !convert_cond_cons, IH. simpl. do 3 f_equal. lia.
  - revert calls. induction cond1 as [|c cond1 IH]; intro calls; auto.
    rewrite convert_cond_cons. simpl. now rewrite IH.
Qed.

Lemma convert_cond_uuids (uuid4 : nat -> N)
    (cond : list (option cond_value * dict cond_value)) :
  forall calls,
    map uuid_of (convert_cond uuid4 calls cond)
    = map (fun n => Some (Uuid (uuid4 n))) (seq calls (List.length cond)).
Proof.
  induction cond as [|c cond IH]; intro calls; auto.
  rewrite convert_cond_cons. simpl. rewrite IH. f_equal.
  unfold uuid_of, converted. apply dict_get_set_eq.
Qed.

(** X4.  When [uuid4] never returns the same identifier twice, the entries
    [convert_cond] gives all have an identifier and no two of them have the
    same one, whatever identifiers the dicts of the pairs came with. *)
Theorem convert_cond_distinct_uuids (uuid4 : nat -> N) (calls : nat)
    (cond : list (option cond_value * dict cond_value)) :
  (forall a b, uuid4 a = uuid4 b -> a = b) ->
  NoDup (map uuid_of (convert_cond uuid4 calls cond))
  /\ ~ In None (map uuid_of (convert_cond uuid4 calls cond)).
Proof.
  intro Inj. rewrite convert_cond_uuids. split.
  - apply Finite.Injective_map_NoDup; [|apply seq_NoDup].
    intros a b E. injection E as E. now apply Inj.
  - intro I. apply in_map_iff in I as (n & E & _). discriminate.
Qed.

Lemma convert_cond_distinct_uuids_witness :
  NoDup (map uuid_of (convert_cond N.of_nat 7 examples2.pairs))
  /\ ~ In None (map uuid_of (convert_cond N.of_nat 7 examples2.pairs)).
Proof.
  apply (convert_cond_distinct_uuids N.of_nat 7 examples2.pairs).
  intros a b E. lia.
Defined.

(** ** [get_models_from_cond] *)

(** X5.  [get_models_from_cond] returns a model exactly when some entry
    holds it under the key, as the value or as a member of a list value;
    entries are taken in order, so the result for two lists of entries one
    after the other is the two results one after the other. *)
Theorem get_models_from_cond_members {A} (model_type : Cond -> option (pyval A))
    (cond1 cond2 : list Cond) (x : A) :
  (In x (get_models_from_cond cond1 model_type)
   <-> exists c, In c cond1
                 /\ (model_type c = Some (Single x)
                     \/ exists xs, model_type c = Some (PyList xs) /\ In x xs))
  /\ get_models_from_cond (cond1 ++ cond2) model_type
     = get_models_from_cond cond1 model_type
       ++ get_models_from_cond cond2 model_type.
Proof.
  rewrite !get_models_from_cond_flat_map. split; [|apply flat_map_app].
  rewrite in_flat_map. split.
  - intros (c & I & J). exists c. split; auto.
    destruct (model_type c) as [[y|xs]|]; simpl in J.
    + destruct J as [->|[]]. now left.
    + right. eauto.
    + destruct J.
  - intros (c & I & [E|(xs & E & J)]); exists c; rewrite E; simpl; auto.
Qed.

(** ** Outcomes of [get_additional_models] *)

Section Outcomes.

Context {SI : SetIteration}.
Variables (h : heap) (dt : dtype).

Lemma control_loop_outcome (l : list ref) :
  forall acc,
    (exists r,
       foldM (fun (acc : list ref * Z) m =>
                let '(control_models, inference_memory) := acc in
                (ms <- call (get_models (h m)) ;;
                 imr <- call (inference_memory_requirements (h m)) ;;
                 Ok (control_models ++ ms, (inference_memory + imr dt)%Z))%py)
             acc l = Ok r
       /\ forall m, In m l -> has_control_methods h m)
    \/ (foldM (fun (acc : list ref * Z) m =>
                 let '(control_models, inference_memory) := acc in
                 (ms <- call (get_models (h m)) ;;
                  imr <- call (inference_memory_requirements (h m)) ;;
                  Ok (control_models ++ ms, (inference_memory + imr dt)%Z))%py)
              acc l = Raise AttributeError
        /\ exists m, In m l /\ ~ has_control_methods h m).
Proof.
  unfold has_control_methods.
  induction l as [|m l IH]; intros [cm im]; simpl.
  - left. eexists. split; [reflexivity|]. intros m [].
  - destruct (get_models (h m)) as [ms|] eqn:G; simpl.
    + destruct (inference_memory_requirements (h m)) as [imr|] eqn:R; simpl.
      * destruct (IH (cm ++ ms, (im + imr dt)%Z)) as [(r & E & A)|(E & x & I & N)].
        -- left. exists r. split; auto.
           intros x [<-|I]; [rewrite G, R; split; discriminate|auto].
        -- right. split; auto. exists x. auto.
      * right. split; auto. exists m. split; [now left|].
        rewrite R. intros [_ N]. now apply N.
    + right. split; auto. exists m. split; [now left|].
      rewrite G. intros [N _]. now apply N.
Qed.

Lemma gligen_outcome (items : list (list ref)) :
  (exists l, mapM item1 items = Ok l
             /\ forall x, In x items -> 2 <= List.length x)
  \/ (mapM item1 items = Raise IndexError
      /\ exists x, In x items /\ List.length x < 2).
Proof.
  induction items as [|x items IH]; cbn [mapM].
  - left. eexists. split; [reflexivity|]. intros x [].
  - unfold item1 at 1 3.
    destruct (nth_error x 1) as [y|] eqn:E; cbn [bind].
    + assert (L : 2 <= List.length x).
      { assert (1 < List.length x) by (apply nth_error_Some; congruence). lia. }
      destruct IH as [(l & -> & A)|(-> & z & I & N)]; cbn [bind].
      * left. eexists. split; [reflexivity|]. intros z [<-|I]; auto.
      * right. split; [reflexivity|]. exists z. split; [now right|exact N].
    + right. split; [reflexivity|]. exists x. split; [now left|].
      apply nth_error_None in E. lia.
Qed.

Lemma get_additional_models_cases (conds : Conds) :
  (exists r, get_additional_models h conds dt = Ok r
             /\ (forall m, In m (control_refs conds) -> has_control_methods h m)
             /\ (forall x, In x (gligen_items conds) -> 2 <= List.length x))
  \/ (get_additional_models h conds dt = Raise AttributeError
      /\ exists m, In m (control_refs conds) /\ ~ has_control_methods h m)
  \/ (get_additional_models h conds dt = Raise IndexError
      /\ (forall m, In m (control_refs conds) -> has_control_methods h m)
      /\ exists x, In x (gligen_items conds) /\ List.length x < 2).
Proof.
  unfold get_additional_models. rewrite collect_loop.
  destruct (control_loop_outcome (set_iter (control_refs conds)) ([], 0%Z))
    as [([cm im] & -> & A)|(-> & m & I & N)]; cbn [bind].
  - assert (A' : forall m, In m (control_refs conds) -> has_control_methods h m).
    { intros m I. apply A. rewrite set_iter_In. exact I. }
    destruct (gligen_outcome (gligen_items conds)) as [(l & -> & G)|(-> & x & I & N)];
      cbn [bind].
    + left. eexists. split; [reflexivity|]. split; auto.
    + right; right. split; auto. split; auto. exists x. auto.
  - right; left. split; auto. exists m. split; auto.
    rewrite set_iter_In in I. exact I.
Qed.

(** X6.  [get_additional_models] ends in one of three ways.  It returns
    exactly when every control object of the conditioning set has both
    methods and every gligen item has a second component.  It raises
    [AttributeError] exactly when some control object lacks a method,
    whatever the gligen items are.  It raises [IndexError] exactly when the
    control objects are fine and some gligen item is too short. *)
Theorem get_additional_models_outcome (conds : Conds) :
  ((exists r, get_additional_models h conds dt = Ok r)
   <-> (forall m, In m (control_refs conds) -> has_control_methods h m)
       /\ (forall x, In x (gligen_items conds) -> 2 <= List.length x))
  /\ (get_additional_models h conds dt = Raise AttributeError
      <-> exists m, In m (control_refs conds) /\ ~ has_control_methods h m)
  /\ (get_additional_models h conds dt = Raise IndexError
      <-> (forall m, In m (control_refs conds) -> has_control_methods h m)
          /\ exists x, In x (gligen_items conds) /\ List.length x < 2).
Proof.
  destruct (get_additional_models_cases conds)
    as [(r & E & A & G)|[(E & m & I & N)|(E & A & x & I & N)]]; rewrite E.
  - split; [|split].
    + split; [auto|eauto].
    + split; [discriminate|]. intros (m & I & N). exfalso. apply N, A, I.
    + split; [discriminate|]. intros (_ & x & I & N). specialize (G x I). lia.
  - split; [|split].
    + split; [intros (r & R); discriminate|].
      intros (A & _). exfalso. apply N, A, I.
    + split; [eauto|reflexivity].
    + split; [discriminate|]. intros (A & _). exfalso. apply N, A, I.
  - split; [|split].
    + split; [intros (r & R); discriminate|].
      intros (_ & G). specialize (G x I). lia.
    + split; [discriminate|]. intros (m & J & M). exfalso. apply M, A, J.
    + split; [eauto|reflexivity].
Qed.

End Outcomes.

(** X7.  The order in which the set of control objects is iterated does not
    matter to the caller of [get_additional_models]: two orders give the
    same exception, or the same memory hint and the same models up to their
    order in the list. *)
Theorem get_additional_models_any_order (SI1 SI2 : SetIteration) (h : heap)
    (dt : dtype) (conds : Conds) :
  match get_additional_models (SI := SI1) h conds dt,
        get_additional_models (SI := SI2) h conds dt with
  | Ok (models1, hint1), Ok (models2, hint2) =>
      hint1 = hint2 /\ Permutation models1 models2
  | Raise e1, Raise e2 => e1 = e2
  | _, _ => False
  end.
Proof.
  destruct (get_additional_models_cases (SI := SI1) h dt conds)
    as [([m1 h1] & E1 & A1 & G1)|[(E1 & m & I & N)|(E1 & A1 & x & I & N)]];
    destruct (get_additional_models_cases (SI := SI2) h dt conds)
      as [([m2 h2] & E2 & A2 & G2)|[(E2 & m' & I' & N')|(E2 & A2 & x' & I' & N')]];
    rewrite E1, E2;
    try reflexivity;
    try (exfalso; apply N; now auto);
    try (exfalso; apply N'; now auto);
    try (exfalso; specialize (G1 _ I'); lia);
    try (exfalso; specialize (G2 _ I); lia).
  apply (get_additional_models_Ok (SI := SI1)) in E1 as [-> ->].
  apply (get_additional_models_Ok (SI := SI2)) in E2 as [-> ->].
  assert (P : Permutation (set_iter (SetIteration := SI1) (control_refs conds))
                          (set_iter (SetIteration := SI2) (control_refs conds))).
  { apply NoDup_Permutation; try apply set_iter_NoDup.
    intro x. now rewrite !set_iter_In. }
  split.
  - apply sumZ_Permutation, Permutation_map, P.
  - apply Permutation_app_tail, Permutation_flat_map, P.
Qed.

(** ** What depends on the branches *)

Lemma estimate_memory_shapes (model : ModelPatcher) (noise_shape : shape)
    (conds : Conds) :
  estimate_memory model noise_shape conds
  = (n0 <- item0 noise_shape ;;
     Ok (model_base.memory_required (model_patcher.model model)
           ((n0 * 2)%Z :: tl noise_shape) (full_buckets (shapes_seen model conds)),
         model_base.memory_required (model_patcher.model model)
           (n0 :: tl noise_shape) (largest_buckets (shapes_seen model conds))))%py.
Proof.
  unfold estimate_memory.
  rewrite (foldM_flat_map
             (fun acc cond =>
                foldM estimate_memory_item acc
                      (model_base.extra_conds_shapes (model_patcher.model model) cond))
             snd conds).
  fold (entries conds).
  rewrite (foldM_flat_map estimate_memory_item
             (model_base.extra_conds_shapes (model_patcher.model model))).
  fold (shapes_seen model conds).
  change (@nil (string * list shape), @nil (string * list shape))
    with (full_buckets [], largest_buckets []).
  rewrite estimate_memory_loop. reflexivity.
Qed.

Section Regrouping.

Context {SI : SetIteration}.

(** X8.  Collection, estimate and teardown look at the entries of the
    conditioning set one after the other and never at the branch an entry
    is in: two conditioning sets with the same entries in the same order
    give the same auxiliary resources and hint (or exception), the same
    estimate, and the same cleanup calls, however the entries are grouped
    into branches and whatever the branches are called. *)
Theorem regrouping_changes_nothing (h : heap) (dt : dtype)
    (model : ModelPatcher) (noise_shape : shape) (models : list ref)
    (conds conds' : Conds) :
  entries conds = entries conds' ->
  get_additional_models h conds dt = get_additional_models h conds' dt
  /\ estimate_memory model noise_shape conds
     = estimate_memory model noise_shape conds'
  /\ cleanup_models h conds models = cleanup_models h conds' models.
Proof.
  intro E.
  assert (C : control_refs conds = control_refs conds')
    by (unfold control_refs; now rewrite E).
  assert (G : gligen_items conds = gligen_items conds')
    by (unfold gligen_items; now rewrite E).
  assert (A : additional_refs conds = additional_refs conds')
    by (unfold additional_refs; now rewrite E).
  assert (S : shapes_seen model conds = shapes_seen model conds')
    by (unfold shapes_seen; now rewrite E).
  split; [|split].
  - unfold get_additional_models. rewrite !collect_loop. now rewrite C, G, A.
  - rewrite !estimate_memory_shapes. now rewrite S.
  - unfold cleanup_models. rewrite !control_cleanup_loop. now rewrite C.
Qed.

Variables (load_models_gpu : DeviceManager) (h : heap).

(** X9.  An output shape without any dimension makes [estimate_memory] raise
    [IndexError], and [_prepare_sampling] then ends with an exception
    without having sent a load request. *)
Theorem empty_noise_shape (model : ModelPatcher) (conds : Conds)
    (model_options : option ModelOptions) :
  estimate_memory model [] conds = Raise IndexError
  /\ fst (_prepare_sampling load_models_gpu h model [] conds model_options) = []
  /\ exists e,
       snd (_prepare_sampling load_models_gpu h model [] conds model_options)
       = Raise e.
Proof.
  assert (E : estimate_memory model [] conds = Raise IndexError)
    by (rewrite estimate_memory_shapes; reflexivity).
  split; [exact E|]. unfold _prepare_sampling. rewrite E.
  destruct (get_additional_models h conds (model_patcher.model_dtype model))
    as [[ms hint]|e]; simpl; eauto.
Qed.

(** X10.  [_prepare_sampling] sends at most one load request to the device
    manager and calls no [cleanup()].  When it has sent no request, it ends
    with an exception.  When it has sent one, the request starts with the
    primary resource, and the call returns the model, the conditioning set
    as given and the resources listed after the primary one if the device
    manager accepts, and ends with the exception of the device manager if
    it refuses. *)
Theorem prepare_sampling_outcomes (model : ModelPatcher) (noise_shape : shape)
    (conds : Conds) (model_options : option ModelOptions) :
  (fst (_prepare_sampling load_models_gpu h model noise_shape conds model_options)
   = []
   /\ exists e,
        snd (_prepare_sampling load_models_gpu h model noise_shape conds
               model_options) = Raise e)
  \/ (exists models required minimum,
        fst (_prepare_sampling load_models_gpu h model noise_shape conds
               model_options)
        = [LoadModelsGpu (model_patcher.self model :: models) required minimum]
        /\ snd (_prepare_sampling load_models_gpu h model noise_shape conds
                  model_options)
           = match load_models_gpu (model_patcher.self model :: models)
                     required minimum with
             | Ok _ => Ok (model_patcher.model model, conds, models)
             | Raise e => Raise e
             end).
Proof.
  unfold _prepare_sampling.
  destruct (get_additional_models h conds (model_patcher.model_dtype model))
    as [[ms hint]|e]; [|left; simpl; eauto].
  destruct (estimate_memory model noise_shape conds) as [[req mn]|e];
    [|left; simpl; eauto].
  right. do 3 eexists. split; [reflexivity|]. simpl.
  destruct (load_models_gpu _ _ _) as [[]|e]; reflexivity.
Qed.

(** X11.  The cleanup calls of [cleanup_models] are, in this order: one for
    every entry of [models] that has a cleanup method, in the order of the
    list, then one for every distinct control object of the conditioning
    set that has one.  It makes no other call. *)
Theorem cleanup_models_trace (conds : Conds) (models : list ref) :
  exists roots,
    NoDup roots
    /\ (forall m, In m roots <-> In m (control_refs conds))
    /\ cleanup_models h conds models
       = map Cleanup (filter (has_cleanup_method h) models)
         ++ map Cleanup (filter (has_cleanup_method h) roots).
Proof.
  exists (set_iter (control_refs conds)).
  split; [apply set_iter_NoDup|]. split; [apply set_iter_In|].
  unfold cleanup_models.
  now rewrite control_cleanup_loop, !cleanup_additional_models_eq.
Qed.

End Regrouping.

Lemma regrouping_changes_nothing_witness :
  get_additional_models (SI := nodup_iteration) examples.heap1
    examples3.two_branches float16
  = get_additional_models (SI := nodup_iteration) examples.heap1
      examples3.one_branch float16
  /\ estimate_memory examples.patcher [1; 4; 8; 8]%Z examples3.two_branches
     = estimate_memory examples.patcher [1; 4; 8; 8]%Z examples3.one_branch
  /\ cleanup_models (SI := nodup_iteration) examples.heap1
       examples3.two_branches [6%positive]
     = cleanup_models (SI := nodup_iteration) examples.heap1
         examples3.one_branch [6%positive].
Proof.
  apply (regrouping_changes_nothing (SI := nodup_iteration) examples.heap1 float16
           examples.patcher [1; 4; 8; 8]%Z [6%positive]
           examples3.two_branches examples3.one_branch).
  reflexivity.
Defined.

(** ** More on collecting hooks *)

Lemma fold_add_absorbs (l : list hooks.Hook) (g : hooks.HookGroup) :
  (forall x, In x l -> In x (hooks.hooks g)) -> fold_left hooks.add l g = g.
Proof.
  induction l as [|x l IH]; intro A; simpl; auto.
  assert (E : hooks.add g x = g).
  { unfold hooks.add.
    destruct (in_dec hooks.Hook_eq_dec x (hooks.hooks g)) as [_|N]; auto.
    exfalso. apply N, A. now left. }
  rewrite E. apply IH. intros y I. apply A. now right.
Qed.

Lemma fold_add_extends (l : list hooks.Hook) :
  forall g,
    exists new,
      hooks.hooks (fold_left hooks.add l g) = hooks.hooks g ++ new
      /\ NoDup new
      /\ forall x, In x new -> ~ In x (hooks.hooks g).
Proof.
  induction l as [|x l IH]; intro g; simpl.
  - exists []. rewrite app_nil_r. repeat split; auto using NoDup_nil.
  - destruct (IH (hooks.add g x)) as (new & E & D & F). unfold hooks.add in *.
    destruct (in_dec hooks.Hook_eq_dec x (hooks.hooks g)) as [I|N].
    + exists new. auto.
    + simpl in *. exists (x :: new). rewrite E, <- app_assoc.
      split; [reflexivity|]. split.
      * constructor; auto. intro J. apply (F x J). apply in_or_app. right. now left.
      * intros y [<-|J]; auto. intro K. apply (F y J). apply in_or_app. now left.
Qed.

Lemma set_iter_nil {SI : SetIteration} : set_iter [] = [].
Proof.
  destruct (set_iter []) as [|x l] eqn:E; auto.
  exfalso. apply (set_iter_In [] x). rewrite E. now left.
Qed.

Section MoreHooks.

Context {SI : SetIteration}.
Variables (depth : nat) (h : heap).

(** What a call adds and where it looks does not depend on the group it is
    given. *)
Lemma get_hooks_from_cond_shape (cond : list Cond) :
  exists visited added,
    forall g,
      get_hooks_from_cond depth h cond g
      = (visited, option_map (fun l => fold_left hooks.add l g) added).
Proof.
  unfold get_hooks_from_cond.
  destruct (extra_hooks_of_cnets depth h (set_iter (branch_controls cond)) [])
    as [visited [hooks_list|]] eqn:E.
  - destruct (hooks.combine_all_hooks hooks_list) as [e|] eqn:C.
    + exists visited, (Some (branch_hooks cond ++ hooks.hooks e)). intro g.
      rewrite hooks_loop. cbn [app]. rewrite E, C. simpl.
      now rewrite fold_left_app.
    + exists visited, (Some (branch_hooks cond)). intro g.
      rewrite hooks_loop. cbn [app]. now rewrite E, C.
  - exists visited, None. intro g. rewrite hooks_loop. cbn [app]. now rewrite E.
Qed.

Lemma collect_hooks_shape (conds : Conds) :
  exists visited added,
    forall g,
      collect_hooks depth h conds g
      = (visited, option_map (fun l => fold_left hooks.add l g) added).
Proof.
  induction conds as [|[k cond] conds (v2 & a2 & IH)].
  - exists [], (Some []). reflexivity.
  - destruct (get_hooks_from_cond_shape cond) as (v1 & a1 & H1).
    destruct a1 as [l1|].
    + destruct a2 as [l2|].
      * exists (v1 ++ v2), (Some (l1 ++ l2)). intro g. cbn [collect_hooks].
        rewrite H1. simpl. rewrite IH. simpl. now rewrite fold_left_app.
      * exists (v1 ++ v2), None. intro g. cbn [collect_hooks].
        rewrite H1. simpl. now rewrite IH.
    + exists v1, None. intro g. cbn [collect_hooks]. now rewrite H1.
Qed.

(** X12.  A branch without control objects needs no walk: whatever the
    number of nested calls allowed, even none, [get_hooks_from_cond]
    returns, looks at no node, and the group holds what it held before and
    the hooks of the entries. *)
Theorem get_hooks_from_cond_no_control (cond : list Cond) (g : hooks.HookGroup) :
  (forall c, In c cond -> c_control c = None) ->
  exists g',
    get_hooks_from_cond depth h cond g = ([], Some g')
    /\ forall x, In x (hooks.hooks g')
                 <-> In x (hooks.hooks g) \/ In x (branch_hooks cond).
Proof.
  intro N.
  assert (B : branch_controls cond = []).
  { unfold branch_controls, key_control.
    induction cond as [|c cond IH]; simpl; auto.
    rewrite (N c (or_introl eq_refl)). simpl. apply IH.
    intros c' I. apply N. now right. }
  exists (fold_left hooks.add (branch_hooks cond) g). split.
  - unfold get_hooks_from_cond. rewrite hooks_loop, B. cbn [app].
    rewrite set_iter_nil. destruct depth; reflexivity.
  - intro x. apply in_fold_add.
Qed.

(** X13.  Collecting never removes or moves a hook that is already in the
    group: the hooks of the group it returns are those it was given, in
    their order, followed by hooks that were not there yet, each once. *)
Theorem collect_hooks_extends (conds : Conds) (g g' : hooks.HookGroup) :
  snd (collect_hooks depth h conds g) = Some g' ->
  exists new,
    hooks.hooks g' = hooks.hooks g ++ new
    /\ NoDup new
    /\ forall x, In x new -> ~ In x (hooks.hooks g).
Proof.
  destruct (collect_hooks_shape conds) as (v & a & S). rewrite S.
  destruct a as [l|]; simpl; [|discriminate].
  intros [= <-]. apply fold_add_extends.
Qed.

(** X14.  Collecting is idempotent: run again on the group it returned, it
    looks at the same nodes and returns that group unchanged. *)
Theorem collect_hooks_idempotent (conds : Conds) (g g' : hooks.HookGroup) :
  snd (collect_hooks depth h conds g) = Some g' ->
  collect_hooks depth h conds g' = (fst (collect_hooks depth h conds g), Some g').
Proof.
  destruct (collect_hooks_shape conds) as (v & a & S). rewrite !S.
  destruct a as [l|]; simpl; [|discriminate].
  intros [= <-]. f_equal. f_equal. apply fold_add_absorbs.
  intros x I. apply in_fold_add. now right.
Qed.

End MoreHooks.

Lemma get_hooks_from_cond_no_control_witness :
  exists g',
    get_hooks_from_cond (SI := nodup_iteration) 0 examples.chain_heap
      examples3.hooks_only hooks.empty = ([], Some g')
    /\ forall x, In x (hooks.hooks g')
                 <-> In x (hooks.hooks hooks.empty)
                     \/ In x (branch_hooks examples3.hooks_only).
Proof.
  apply (get_hooks_from_cond_no_control (SI := nodup_iteration) 0
           examples.chain_heap examples3.hooks_only hooks.empty).
  intros c [<-|[<-|[]]]; reflexivity.
Defined.

Lemma collect_hooks_extends_witness :
  exists new,
    [examples.hookB; examples.hookA; examples.hookC]
    = hooks.hooks (hooks.mkHookGroup [examples.hookB]) ++ new
    /\ NoDup new
    /\ forall x, In x new -> ~ In x (hooks.hooks (hooks.mkHookGroup [examples.hookB])).
Proof.
  apply (collect_hooks_extends (SI := nodup_iteration) 2 examples.chain_heap
           examples.conds_shared_tail (hooks.mkHookGroup [examples.hookB])
           (hooks.mkHookGroup [examples.hookB; examples.hookA; examples.hookC])).
  reflexivity.
Defined.

Lemma collect_hooks_idempotent_witness :
  collect_hooks (SI := nodup_iteration) 2 examples.chain_heap
    examples.conds_shared_tail
    (hooks.mkHookGroup [examples.hookA; examples.hookC; examples.hookB])
  = (fst (collect_hooks (SI := nodup_iteration) 2 examples.chain_heap
            examples.conds_shared_tail hooks.empty),
     Some (hooks.mkHookGroup [examples.hookA; examples.hookC; examples.hookB])).
Proof.
  apply (collect_hooks_idempotent (SI := nodup_iteration) 2 examples.chain_heap
           examples.conds_shared_tail hooks.empty
           (hooks.mkHookGroup [examples.hookA; examples.hookC; examples.hookB])).
  reflexivity.
Defined.

(** ** [prepare_model_patcher] without ["transformer_options"] *)

Lemma only_allocates_ret {A} (a : A) : only_allocates (st_ret a).
Proof. intro s. exists []. simpl. now rewrite app_nil_r. Qed.

Lemma only_allocates_fail {A} : only_allocates (@st_fail A).
Proof. intro s. exists []. simpl. now rewrite app_nil_r. Qed.

Lemma only_allocates_load (l : loc) : only_allocates (load l).
Proof. intro s. exists []. simpl. now rewrite app_nil_r. Qed.

Lemma only_allocates_alloc (o : obj) : only_allocates (alloc o).
Proof. intro s. now exists [o]. Qed.

Lemma only_allocates_bind {A B} (m : ST A) (k : A -> ST B) :
  only_allocates m -> (forall a, only_allocates (k a)) ->
  only_allocates (st_bind m k).
Proof.
  intros Hm Hk s. unfold st_bind. destruct (Hm s) as [e1 E1].
  destruct (m s) as [s1 [a|]]; simpl in *.
  - destruct (Hk a s1) as [e2 E2]. exists (e1 ++ e2).
    now rewrite E2, E1, app_assoc.
  - now exists e1.
Qed.

Lemma only_allocates_map_st {A B} (f : A -> ST B) (l : list A) :
  (forall x, only_allocates (f x)) -> only_allocates (map_st f l).
Proof.
  intro F. induction l as [|x l IH]; simpl; [apply only_allocates_ret|].
  apply only_allocates_bind; [apply F|]. intro y.
  apply only_allocates_bind; [apply IH|]. intro ys. apply only_allocates_ret.
Qed.

(** The copy is built next to what is there. *)
Lemma only_allocates_copy (fuel : nat) :
  forall v, only_allocates (copy_nested_dicts fuel v).
Proof.
  induction fuel as [|fuel IH]; intros [a|l|g]; simpl;
    try apply only_allocates_ret; try apply only_allocates_fail.
  apply only_allocates_bind; [apply only_allocates_load|].
  intros [items|items].
  - apply only_allocates_bind.
    + apply only_allocates_map_st. intro kv.
      apply only_allocates_bind; [apply IH|]. intro v'. apply only_allocates_ret.
    + intro items'. apply only_allocates_bind; [apply only_allocates_alloc|].
      intro l'. apply only_allocates_ret.
  - apply only_allocates_bind.
    + apply only_allocates_map_st. apply IH.
    + intro items'. apply only_allocates_bind; [apply only_allocates_alloc|].
      intro l'. apply only_allocates_ret.
Qed.

Lemma missing_key_stops {A B} (m : ST A) (k : A -> val -> ST B) (l : loc)
    (items : dict val) (key : string) (s0 : store) :
  only_allocates m ->
  nth_error s0 l = Some (DictObj items) ->
  dict_get items key = None ->
  st_bind m (fun a => st_bind (getitem (Ref l) key) (k a)) s0
  = (fst (m s0), None).
Proof.
  intros O E K. unfold st_bind at 1. destruct (O s0) as [added F].
  destruct (m s0) as [s1 [a|]]; simpl in *; [|reflexivity]. subst s1.
  assert (L : l < List.length s0) by (apply nth_error_Some; congruence).
  unfold st_bind, getitem, load. rewrite nth_error_app1, E, K by exact L.
  reflexivity.
Qed.

Section MissingKey.

Context {SI : SetIteration}.

(** X15.  When the options dict has no ["transformer_options"] key,
    [prepare_model_patcher] ends without a value, every object of the store
    is as it was (at most the copy of the wrappers has been added), and no
    capability of a hook or of the patcher has been called: the outcome is
    the same whatever these capabilities would do. *)
Theorem prepare_model_patcher_missing_key (depth fuel : nat)
    (calls calls' : HookCalls) (h : heap) (model : ModelPatcher) (conds : Conds)
    (l : loc) (items : dict val) (s0 : store) :
  nth_error s0 l = Some (DictObj items) ->
  dict_get items "transformer_options" = None ->
  snd (prepare_model_patcher depth fuel calls h model conds (Ref l) s0) = None
  /\ (exists added,
        fst (prepare_model_patcher depth fuel calls h model conds (Ref l) s0)
        = s0 ++ added)
  /\ prepare_model_patcher depth fuel calls h model conds (Ref l) s0
     = prepare_model_patcher depth fuel calls' h model conds (Ref l) s0.
Proof.
  intros E K. unfold prepare_model_patcher.
  destruct (snd (collect_hooks depth h conds hooks.empty)) as [hs|].
  - pose proof (only_allocates_copy fuel (model_patcher.wrappers model)) as O.
    rewrite !(missing_key_stops _ _ l items "transformer_options" s0 O E K).
    simpl. split; [reflexivity|]. split; [apply O|reflexivity].
  - simpl. split; [reflexivity|]. split; [|reflexivity].
    exists []. now rewrite app_nil_r.
Qed.

End MissingKey.

Lemma prepare_model_patcher_missing_key_witness :
  snd (prepare_model_patcher (SI := nodup_iteration) 2 5 examples.quiet_calls
         examples.chain_heap examples.patcher examples.conds_shared_tail
         (Ref 4) examples3.store_no_key) = None
  /\ (exists added,
        fst (prepare_model_patcher (SI := nodup_iteration) 2 5 examples.quiet_calls
               examples.chain_heap examples.patcher examples.conds_shared_tail
               (Ref 4) examples3.store_no_key)
        = examples3.store_no_key ++ added)
  /\ prepare_model_patcher (SI := nodup_iteration) 2 5 examples.quiet_calls
       examples.chain_heap examples.patcher examples.conds_shared_tail
       (Ref 4) examples3.store_no_key
     = prepare_model_patcher (SI := nodup_iteration) 2 5 examples3.loud_calls
         examples.chain_heap examples.patcher examples.conds_shared_tail
         (Ref 4) examples3.store_no_key.
Proof.
  apply (prepare_model_patcher_missing_key (SI := nodup_iteration) 2 5
           examples.quiet_calls examples3.loud_calls examples.chain_heap
           examples.patcher examples.conds_shared_tail 4
           [("other"%string, Atom 1)] examples3.store_no_key);
    reflexivity.
Defined.

(** ** Preparing and tearing down together *)

Section PrepareThenCleanup.

Context {SI : SetIteration}.
Variables (load_models_gpu : DeviceManager) (h : heap).

(** X16.  Teardown releases what preparation loaded: when
    [_prepare_sampling] returns, [cleanup_models] called with the
    conditioning set and the resources it returned calls the cleanup method
    of every returned resource and of every control object that has one, at
    least once. *)
Theorem cleanup_after_prepare (model : ModelPatcher) (noise_shape : shape)
    (conds : Conds) (model_options : option ModelOptions)
    (real_model : BaseModel) (conds' : Conds) (models : list ref) (m : ref) :
  snd (_prepare_sampling load_models_gpu h model noise_shape conds model_options)
  = Ok (real_model, conds', models) ->
  has_cleanup (h m) = true ->
  In m models \/ In m (control_refs conds) ->
  conds' = conds
  /\ 1 <= cleanup_calls (cleanup_models h conds' models) m.
Proof.
  intros R C I.
  assert (E : conds' = conds).
  { unfold _prepare_sampling in R.
    destruct (get_additional_models h conds (model_patcher.model_dtype model))
      as [[ms hint]|e]; [|discriminate].
    destruct (estimate_memory model noise_shape conds) as [[req mn]|e];
      [|discriminate].
    simpl in R. destruct (load_models_gpu _ _ _) as [[]|e]; simpl in R;
      congruence. }
  split; [exact E|]. subst conds'.
  unfold cleanup_models.
  rewrite cleanup_calls_app, control_cleanup_loop, !cleanup_calls_additional, C.
  destruct I as [I|I].
  - apply (count_occ_In Pos.eq_dec) in I. lia.
  - apply (set_iter_In (control_refs conds)) in I.
    apply (count_occ_In Pos.eq_dec) in I. lia.
Qed.

(** X17.  The memory figures of the load request come from the estimate and
    from the control objects only: the models of registered hooks and the
    nested additional models of the primary resource are added to the
    request, but two runs that differ only in them ask for the same
    required and minimum memory (or both send nothing). *)
Theorem memory_figures_ignore_extra_models (model model' : ModelPatcher)
    (noise_shape : shape) (conds : Conds)
    (model_options model_options' : option ModelOptions) :
  model_patcher.model model = model_patcher.model model' ->
  model_patcher.model_dtype model = model_patcher.model_dtype model' ->
  match fst (_prepare_sampling load_models_gpu h model noise_shape conds
               model_options),
        fst (_prepare_sampling load_models_gpu h model' noise_shape conds
               model_options') with
  | [LoadModelsGpu _ required minimum], [LoadModelsGpu _ required' minimum'] =>
      required = required' /\ minimum = minimum'
  | [], [] => True
  | _, _ => False
  end.
Proof.
  intros M D. unfold _prepare_sampling. rewrite <- D.
  assert (E : estimate_memory model' noise_shape conds
              = estimate_memory model noise_shape conds).
  { rewrite !estimate_memory_shapes. unfold shapes_seen. now rewrite M. }
  rewrite E.
  destruct (get_additional_models h conds (model_patcher.model_dtype model))
    as [[ms hint]|e]; simpl; auto.
  destruct (estimate_memory model noise_shape conds) as [[req mn]|e]; simpl; auto.
Qed.

End PrepareThenCleanup.

Lemma cleanup_after_prepare_witness :
  examples.conds_control5 = examples.conds_control5
  /\ 1 <= cleanup_calls
            (cleanup_models (SI := nodup_iteration) examples.heap1
               examples.conds_control5 [6%positive]) 5%positive.
Proof.
  apply (cleanup_after_prepare (SI := nodup_iteration) examples.always_ok
           examples.heap1 examples.patcher [1; 4; 8; 8]%Z examples.conds_control5
           None examples.base examples.conds_control5 [6%positive] 5%positive).
  - reflexivity.
  - reflexivity.
  - right. simpl. now left.
Defined.

Lemma memory_figures_ignore_extra_models_witness :
  match fst (_prepare_sampling (SI := nodup_iteration) examples.always_ok
               examples.heap1 examples.patcher [1; 4; 8; 8]%Z
               examples.conds_control5 None),
        fst (_prepare_sampling (SI := nodup_iteration) examples.always_ok
               examples.heap1 examples4.nested_patcher [1; 4; 8; 8]%Z
               examples.conds_control5 examples4.options_with_models) with
  | [LoadModelsGpu _ required minimum], [LoadModelsGpu _ required' minimum'] =>
      required = required' /\ minimum = minimum'
  | [], [] => True
  | _, _ => False
  end.
Proof.
  apply (memory_figures_ignore_extra_models (SI := nodup_iteration)
           examples.always_ok examples.heap1 examples.patcher
           examples4.nested_patcher [1; 4; 8; 8]%Z examples.conds_control5
           None examples4.options_with_models);
    reflexivity.
Defined.

(** The second run of the witness does carry the extra models. *)
Example prepare_sampling_with_extra_models :
  fst (_prepare_sampling (SI := nodup_iteration) examples.always_ok
         examples.heap1 examples4.nested_patcher [1; 4; 8; 8]%Z
         examples.conds_control5 examples4.options_with_models)
  = [LoadModelsGpu [1; 6; 12; 8; 9]%positive 612 356].
Proof. reflexivity. Qed.

(** ** The iteration order of the set and the hooks *)

Lemma in_concat_chains (h : heap) (roots : list ref) (chains : list (list ref))
    (n : ref) :
  Forall2 (chain h) roots chains ->
  (In n (List.concat chains)
   <-> exists root nodes, In root roots /\ chain h root nodes /\ In n nodes).
Proof.
  intro F. rewrite in_concat. split.
  - intros (nodes & I & J).
    destruct (Forall2_in_right _ _ _ _ F I) as (root & K & C). eauto.
  - intros (root & nodes & I & C & J).
    destruct (Forall2_in_left _ _ _ _ F I) as (nodes' & K & C').
    rewrite (chain_unique _ _ _ _ C' C) in K. eauto.
Qed.

(** X18.  The order in which the set of control objects is iterated can
    change the order of the collected hooks, not what is collected: when
    the chains of the control objects of a branch end, two orders make
    [get_hooks_from_cond] return groups with the same hooks, after looking
    at the same nodes. *)
Theorem get_hooks_from_cond_any_order (SI1 SI2 : SetIteration) (depth : nat)
    (h : heap) (cond : list Cond) (g : hooks.HookGroup) :
  (forall root, In root (branch_controls cond) ->
                exists nodes, chain h root nodes /\ List.length nodes <= depth) ->
  exists v1 v2 g1 g2,
    get_hooks_from_cond (SI := SI1) depth h cond g = (v1, Some g1)
    /\ get_hooks_from_cond (SI := SI2) depth h cond g = (v2, Some g2)
    /\ (forall x, In x (hooks.hooks g1) <-> In x (hooks.hooks g2))
    /\ (forall n, In n v1 <-> In n v2).
Proof.
  intro E.
  destruct (chains_exist depth h (set_iter (SetIteration := SI1) (branch_controls cond)))
    as (c1 & F1 & L1).
  { intros root I. apply E. now rewrite set_iter_In in I. }
  destruct (chains_exist depth h (set_iter (SetIteration := SI2) (branch_controls cond)))
    as (c2 & F2 & L2).
  { intros root I. apply E. now rewrite set_iter_In in I. }
  destruct (get_hooks_from_cond_chains (SI := SI1) depth h cond g c1 F1 L1)
    as (g1 & R1 & _ & M1).
  destruct (get_hooks_from_cond_chains (SI := SI2) depth h cond g c2 F2 L2)
    as (g2 & R2 & _ & M2).
  assert (V : forall n, In n (List.concat c1) <-> In n (List.concat c2)).
  { intro n. rewrite (in_concat_chains h _ _ n F1), (in_concat_chains h _ _ n F2).
    split; intros (root & nodes & I & C & J); exists root, nodes;
      (split; [|split; assumption]);
      apply (proj2 (set_iter_In _ _)); exact (proj1 (set_iter_In _ _) I). }
  exists (List.concat c1), (List.concat c2), g1, g2.
  split; [exact R1|]. split; [exact R2|]. split; [|exact V].
  intro x. rewrite M1, M2.
  assert (X : (exists e, In e (extra_groups h (List.concat c1)) /\ In x (hooks.hooks e))
              <-> (exists e, In e (extra_groups h (List.concat c2)) /\ In x (hooks.hooks e))).
  { split; intros (e & I & J); exists e; split; auto;
      apply in_extra_groups in I as (n & I & K); apply in_extra_groups;
      exists n; split; auto; now apply V. }
  tauto.
Qed.

Lemma get_hooks_from_cond_any_order_witness :
  exists v1 v2 g1 g2,
    get_hooks_from_cond (SI := nodup_iteration) 2 examples.chain_heap
      examples4.head_and_tail hooks.empty = (v1, Some g1)
    /\ get_hooks_from_cond (SI := examples4.reverse_iteration) 2
         examples.chain_heap examples4.head_and_tail hooks.empty = (v2, Some g2)
    /\ (forall x, In x (hooks.hooks g1) <-> In x (hooks.hooks g2))
    /\ (forall n, In n v1 <-> In n v2).
Proof.
  apply (get_hooks_from_cond_any_order nodup_iteration examples4.reverse_iteration
           2 examples.chain_heap examples4.head_and_tail hooks.empty).
  intros root [<-|[<-|[]]].
  - exists [10; 11]%positive. split; [exact chain_heap_chain|simpl; lia].
  - exists [11%positive]. split; [exact chain_heap_tail|simpl; lia].
Defined.

(** The two orders of the witness walk the chains in different order. *)
Example get_hooks_from_cond_two_orders :
  fst (get_hooks_from_cond (SI := nodup_iteration) 2 examples.chain_heap
         examples4.head_and_tail hooks.empty) = [10; 11; 11]%positive
  /\ fst (get_hooks_from_cond (SI := examples4.reverse_iteration) 2
            examples.chain_heap examples4.head_and_tail hooks.empty)
     = [11; 10; 11]%positive.
Proof. split; reflexivity. Qed.
